(** * gossh: a shallow embedding of the session-orchestration engine

    The development follows the Go sources:
    - [gossh.go]: [printLines], [PrintStatus], [Config], [RunOn], [Run], [Dial],
      [toAddr], [dial], the methods [Run] and [run] of [Client];
    - [log.go]: [Logger], [GetLogger], [WithSubject];
    - [cmd/gossh/main.go]: [printAndCollateStatus], [targets], [main];
    - [cmd/gossh/gorange.go]: [expand], [compress].

    Go values are modelled as follows.  A [string] is a Rocq [string], an [int]
    or a [time.Duration] is a [Z], an [error] is an [option error] ([None] is
    [nil]).  Pointers to [Logger] are locations in a heap of loggers; the
    [*Config] every function of a run receives points to one shared cell of
    the [world].  Calls into the network, ssh and logging libraries are
    recorded as [event]s of a trace, and their results are read from a
    [remote], the description of what the other end does. *)

From Stdlib Require Import ZArith List String Ascii Bool Lia Permutation.
From Stdlib Require Import Numbers.DecimalString.
From stdpp Require Import base list strings gmap.
Import ListNotations.

Local Open Scope string_scope.
Local Open Scope list_scope.
Local Open Scope Z_scope.

(** ** Errors *)

(** The dynamic type of a non-nil [error] value, as far as the program
    distinguishes them ([PrintStatus] switches on [*ssh.ExitError]). *)
Inductive error : Type :=
| ExitError (status : Z)
| SessionTimeoutError
| OtherError (msg : string).

Definition Z_to_string (n : Z) : string := NilEmpty.string_of_int (Z.to_int n).

(** [Error()] of an error value. *)
Definition Error (e : error) : string :=
  match e with
  | ExitError n => "Process exited with status " +:+ Z_to_string n
  | SessionTimeoutError => "session timeout"
  | OtherError msg => msg
  end.

(** ** log.go *)

Definition loc := nat.

Record Logger : Type := mkLogger {
  start : Z;
  subject : string;
  debugLevel : Z
}.

(** ** Handlers

    [OutputHandler] and [StatusHandler] are function types.  The function
    values the repository defines are listed by name; any other function a
    caller passes is a [User...] value, of which only the call is recorded. *)
Inductive OutputHandler : Type :=
| PrintStdout
| PrintStderr
| UserOutput (id : nat).

Inductive StatusHandler : Type :=
| PrintStatus
| printAndCollateStatus
| UserStatus (id : nat).

Definition AuthMethod := nat.

Module Config.
Record t : Type := mk {
  Login : string;
  AuthMethods : list AuthMethod;
  ConnectTimeout : Z;
  SessionTimeout : Z;
  StdoutHandler : option OutputHandler;
  StderrHandler : option OutputHandler;
  StatusHandler : option StatusHandler;
  Logger : option loc
}.

Definition set_Logger (l : option loc) (c : t) : t :=
  mk (Login c) (AuthMethods c) (ConnectTimeout c) (SessionTimeout c)
     (StdoutHandler c) (StderrHandler c) (StatusHandler c) l.
End Config.

(** ** Events and the world *)

Inductive event : Type :=
| EvLog (subject msg : string)
| EvDialTimeout (network addr : string) (timeout : Z)
| EvSetReadDeadline (after : option Z)
| EvNewClientConn (addr user : string) (auth : list AuthMethod) (timeout : Z)
| EvNewSession
| EvStdoutPipe
| EvStderrPipe
| EvGo (h : OutputHandler) (host : string)
| EvStart (cmd : string)
| EvNewTimer (d : Z)
| EvTimerStop
| EvSignal (sig : string)
| EvSessionClose
| EvClientClose
| EvStatus (h : StatusHandler) (host : string) (status : option error)
| EvLock (mutex : string)
| EvUnlock (mutex : string)
| EvStdout (line : string)
| EvStderr (line : string).

Record world : Type := mkWorld {
  heap : list Logger;
  cfg : Config.t;
  clock : Z;
  trace : list event;
  succeeded : list string;
  failed : list string
}.

Definition set_heap (h : list Logger) (w : world) : world :=
  mkWorld h (cfg w) (clock w) (trace w) (succeeded w) (failed w).
Definition set_cfg (c : Config.t) (w : world) : world :=
  mkWorld (heap w) c (clock w) (trace w) (succeeded w) (failed w).
Definition set_trace (t : list event) (w : world) : world :=
  mkWorld (heap w) (cfg w) (clock w) t (succeeded w) (failed w).
Definition set_succeeded (l : list string) (w : world) : world :=
  mkWorld (heap w) (cfg w) (clock w) (trace w) l (failed w).
Definition set_failed (l : list string) (w : world) : world :=
  mkWorld (heap w) (cfg w) (clock w) (trace w) (succeeded w) l.

(** What the other end of one pipeline does: the result of each library call
    ([None] is a nil error), when [sess.Wait] returns and with which status
    ([None]: never), and which case [select] takes when both are ready. *)
Record remote : Type := mkRemote {
  tcp : option error;
  handshake : option error;
  session : option error;
  outpipe : option error;
  errpipe : option error;
  started : option error;
  exit : option (Z * option error);
  tie : bool
}.

(** ** A state monad with panics *)

Inductive outcome (A : Type) : Type :=
| Ret (a : A)
| Panic (msg : string).
Arguments Ret {A} a.
Arguments Panic {A} msg.

Definition M (A : Type) : Type := world -> outcome A * world.

Definition ret {A} (a : A) : M A := fun w => (Ret a, w).
Definition bind {A B} (m : M A) (k : A -> M B) : M B :=
  fun w => match m w with
           | (Ret a, w') => k a w'
           | (Panic s, w') => (Panic s, w')
           end.
Definition panic {A} (msg : string) : M A := fun w => (Panic msg, w).
Definition get : M world := fun w => (Ret w, w).
Definition modify (f : world -> world) : M unit := fun w => (Ret tt, f w).
Definition emit (e : event) : M unit :=
  modify (fun w => set_trace (trace w ++ [e]) w).

(** [defer d; body]: [d] runs when [body] returns or panics; a panic of
    either is the panic of the whole. *)
Definition defer {A} (d : M unit) (body : M A) : M A :=
  fun w => match body w with
           | (Ret a, w') =>
               match d w' with
               | (Ret _, w'') => (Ret a, w'')
               | (Panic s, w'') => (Panic s, w'')
               end
           | (Panic s, w') => (Panic s, snd (d w'))
           end.

#[global] Instance M_ret : MRet M := @ret.
#[global] Instance M_bind : MBind M := fun A B k m => bind m k.

Definition nil_deref : string :=
  "runtime error: invalid memory address or nil pointer dereference".

(** ** log.go, continued *)

Definition alloc (l : Logger) : M loc :=
  fun w => (Ret (List.length (heap w)), set_heap (heap w ++ [l]) w).

Definition deref (p : option loc) : M Logger :=
  fun w => match p with
           | None => (Panic nil_deref, w)
           | Some i => match heap w !! i with
                       | Some l => (Ret l, w)
                       | None => (Panic nil_deref, w)
                       end
           end.

Definition GetLogger (subj : string) (level : Z) : M loc :=
  w ← get; alloc (mkLogger (clock w) subj level).

Definition WithSubject (l : option loc) (subj : string) : M loc :=
  old ← deref l; alloc (mkLogger (start old) subj (debugLevel old)).

Definition Debug (l : option loc) (msg : string) : M unit :=
  lg ← deref l; emit (EvLog (subject lg) msg).

(** ** gossh.go: [PrintStatus] *)

Definition status_line (endpoint : string) (status : option error) : string :=
  match status with
  | Some (ExitError n) =>
      endpoint +:+ ":status:failure, exit status: " +:+ Z_to_string n
  | Some e => endpoint +:+ ":status:failure, error: " +:+ Error e
  | None => endpoint +:+ ":status:success, exit status: 0"
  end.

Definition do_PrintStatus (endpoint : string) (status : option error) : M unit :=
  emit (EvLock "stdoutMutex") ;;
  defer (emit (EvUnlock "stdoutMutex"))
        (emit (EvStdout (status_line endpoint status))).

(** ** cmd/gossh/main.go: [printAndCollateStatus] *)

Definition do_printAndCollateStatus (host : string) (status : option error)
  : M unit :=
  do_PrintStatus host status ;;
  emit (EvLock "mu") ;;
  defer (emit (EvUnlock "mu"))
        match status with
        | Some _ => modify (fun w => set_failed (failed w ++ [host]) w)
        | None => modify (fun w => set_succeeded (succeeded w ++ [host]) w)
        end.

(** Calling a [StatusHandler] value. *)
Definition call_status (h : StatusHandler) (host : string)
  (status : option error) : M unit :=
  emit (EvStatus h host status) ;;
  match h with
  | PrintStatus => do_PrintStatus host status
  | printAndCollateStatus => do_printAndCollateStatus host status
  | UserStatus _ => ret tt
  end.

(** ** gossh.go: [Client] *)

Definition MaxInt64 : Z := 9223372036854775807.

Inductive select_case : Type :=
| case_timeout
| case_status (exit : option error).

(** The [select] of [Client.run]: the timer fires [d] after it is armed
    (at once when [d <= 0]), [sess.Wait] delivers its status on the channel
    when the remote command exits. *)
Definition select (d : Z) (r : remote) : select_case :=
  match exit r with
  | None => case_timeout
  | Some (t, st) =>
      if t <? Z.max 0 d then case_status st
      else if Z.max 0 d <? t then case_timeout
      else if tie r then case_timeout else case_status st
  end.

Module Client.
Record t : Type := mk {
  logger : option loc;
  client : remote;
  host : string;
  sessionTimeout : Z;
  handleStdout : option OutputHandler;
  handleStderr : option OutputHandler;
  handleStatus : option StatusHandler
}.

Definition Close (cl : option t) : M (option error) :=
  match cl with
  | None => panic nil_deref
  | Some _ => emit EvClientClose ;; ret None
  end.

(** [if handler != nil { pipe, err = sess.Pipe() }]: the pipe obtained
    ([true]) or left nil ([false]), or the error. *)
Definition open_pipe (handler : option OutputHandler) (call : event)
  (result : option error) : M (bool + error) :=
  match handler with
  | Some _ =>
      emit call ;;
      match result with
      | Some err => ret (inr err)
      | None => ret (inl true)
      end
  | None => ret (inl false)
  end.

Definition run (cl : option t) (cmd : string) : M (option error) :=
  match cl with
  | None => panic nil_deref
  | Some c =>
      let r := client c in
      emit EvNewSession ;;
      match session r with
      | Some err => ret (Some err)
      | None =>
        defer (emit EvSessionClose) (
          Debug (logger c) "session opened" ;;
          stdout ← open_pipe (handleStdout c) EvStdoutPipe (outpipe r);
          match stdout with
          | inr err => ret (Some err)
          | inl stdout =>
            stderr ← open_pipe (handleStderr c) EvStderrPipe (errpipe r);
            match stderr with
            | inr err => ret (Some err)
            | inl stderr =>
              (if stdout : bool then
                 match handleStdout c with
                 | Some h => emit (EvGo h (host c))
                 | None => panic nil_deref
                 end
               else ret tt) ;;
              (if stderr : bool then
                 match handleStderr c with
                 | Some h => emit (EvGo h (host c))
                 | None => panic nil_deref
                 end
               else ret tt) ;;
              Debug (logger c) "command started" ;;
              emit (EvStart cmd) ;;
              match started r with
              | Some err => ret (Some err)
              | None =>
                let d := if sessionTimeout c =? 0 then MaxInt64
                         else sessionTimeout c in
                emit (EvNewTimer d) ;;
                match select d r with
                | case_timeout =>
                    Debug (logger c) "command timed out" ;;
                    emit (EvSignal "QUIT") ;;
                    emit EvSessionClose ;;
                    ret (Some SessionTimeoutError)
                | case_status exit =>
                    Debug (logger c) "command exited" ;;
                    emit EvTimerStop ;;
                    ret exit
                end
              end
            end
          end)
      end
  end.

Definition Run (cl : option t) (cmd : string) : M (option error) :=
  err ← run cl cmd;
  match cl with
  | None => panic nil_deref
  | Some c =>
      match handleStatus c with
      | Some h => call_status h (host c) err ;; ret err
      | None => ret err
      end
  end.
End Client.

(** ** gossh.go: [toAddr], [dial], [Dial], [Run] *)

Definition toAddr (host : string) : string :=
  match String.index 0 ":" host with
  | None => host +:+ ":22"
  | Some _ => host
  end.

Definition dial (host : string) (r : remote)
  : M (option Client.t * option error) :=
  w ← get;
  let c := cfg w in
  let lgr := Config.Logger c in
  Debug lgr "connecting" ;;
  let addr := toAddr host in
  emit (EvDialTimeout "tcp" addr (Config.ConnectTimeout c)) ;;
  match tcp r with
  | Some err => ret (None, Some err)
  | None =>
      Debug lgr "connected, setting up ssh conn" ;;
      Debug lgr "ConnectTimeout: %s" ;;
      emit (EvSetReadDeadline (Some (Config.ConnectTimeout c))) ;;
      emit (EvNewClientConn addr (Config.Login c) (Config.AuthMethods c)
              (Config.ConnectTimeout c)) ;;
      match handshake r with
      | Some err => ret (None, Some err)
      | None =>
          emit (EvSetReadDeadline None) ;;
          Debug lgr "done" ;;
          ret (Some (Client.mk lgr r host (Config.SessionTimeout c)
                       (Config.StdoutHandler c) (Config.StderrHandler c)
                       (Config.StatusHandler c)),
               None)
      end
  end.

Definition Dial (host : string) (r : remote)
  : M (option Client.t * option error) :=
  w ← get;
  l ← match Config.Logger (cfg w) with
       | None => GetLogger host 2
       | Some _ => WithSubject (Config.Logger (cfg w)) host
       end;
  modify (fun w => set_cfg (Config.set_Logger (Some l) (cfg w)) w) ;;
  res ← dial host r;
  w ← get;
  match snd res, Config.StatusHandler (cfg w) with
  | Some err, Some h => call_status h host (Some err) ;; ret (None, Some err)
  | _, _ => ret (fst res, None)
  end.

Definition Run (host cmd : string) (r : remote) : M (option error) :=
  res ← Dial host r;
  match snd res with
  | Some err => ret (Some err)
  | None => defer (Client.Close (fst res) ;; ret tt)
                  (Client.Run (fst res) cmd)
  end.

(** ** gossh.go: [RunOn]

    [RunOn] starts one goroutine per host and the goroutines run
    concurrently, so it is a transition system.  One step is one
    synchronisation of the source: an iteration of the dispatch loop
    ([sem <- struct{}{}], [workers.Add(1)], [go]), the call [Run(host, cmd, cfg)]
    of a goroutine, the [workers.Done()] and the [<-sem] of its deferred
    function, and the return of [workers.Wait()].  A goroutine whose [Run]
    panics takes the whole process down. *)

Inductive goroutine : Type :=
| Active (host : string) (r : remote)
| Deferred (host : string) (status : option error)
| Signalled (host : string) (status : option error)
| Exited (host : string) (status : option error).

Inductive main_pc : Type :=
| Looping
| Waiting
| Returned.

Record state : Type := mkState {
  shared : world;
  maxFlight : Z;
  pc : main_pc;
  sem : nat;
  wg : Z;
  workers : list goroutine;
  crashed : option string
}.

Definition set_worker (i : nat) (g : goroutine) (s : state) : state :=
  mkState (shared s) (maxFlight s) (pc s) (sem s) (wg s)
          (<[i:=g]> (workers s)) (crashed s).

(** The statements of [RunOn] before the loop. *)
Definition default_logger : M unit :=
  w ← get;
  match Config.Logger (cfg w) with
  | None =>
      l ← GetLogger "main" 2;
      modify (fun w => set_cfg (Config.set_Logger (Some l) (cfg w)) w)
  | Some _ => ret tt
  end.

Definition RunOn_enter (maxFlight : Z) (w : world) : state :=
  let maxFlight := if maxFlight <? 1 then 1 else maxFlight in
  mkState (snd (default_logger w)) maxFlight Looping 0 0 [] None.

Section RunOn.
Variable hosts : list string.
Variable cmd : string.
(** What the remote end of the [k]-th dispatched pipeline does. *)
Variable net : nat -> remote.

Inductive step : state -> state -> Prop :=
| step_dispatch s host :
    crashed s = None ->
    pc s = Looping ->
    hosts !! List.length (workers s) = Some host ->
    Z.of_nat (sem s) < maxFlight s ->
    step s (mkState (shared s) (maxFlight s) Looping (S (sem s)) (wg s + 1)
              (workers s ++ [Active host (net (List.length (workers s)))])
              None)
| step_loop_end s :
    crashed s = None ->
    pc s = Looping ->
    hosts !! List.length (workers s) = None ->
    step s (mkState (shared s) (maxFlight s) Waiting (sem s) (wg s)
              (workers s) None)
| step_run s i host r status w' :
    crashed s = None ->
    workers s !! i = Some (Active host r) ->
    Run host cmd r (shared s) = (Ret status, w') ->
    step s (mkState w' (maxFlight s) (pc s) (sem s) (wg s)
              (<[i:=Deferred host status]> (workers s)) None)
| step_panic s i host r msg w' :
    crashed s = None ->
    workers s !! i = Some (Active host r) ->
    Run host cmd r (shared s) = (Panic msg, w') ->
    step s (mkState w' (maxFlight s) (pc s) (sem s) (wg s)
              (workers s) (Some msg))
| step_done s i host status :
    crashed s = None ->
    workers s !! i = Some (Deferred host status) ->
    step s (mkState (shared s) (maxFlight s) (pc s) (sem s) (wg s - 1)
              (<[i:=Signalled host status]> (workers s)) None)
| step_recv s i host status :
    crashed s = None ->
    workers s !! i = Some (Signalled host status) ->
    step s (mkState (shared s) (maxFlight s) (pc s) (Nat.pred (sem s)) (wg s)
              (<[i:=Exited host status]> (workers s)) None)
| step_wait s :
    crashed s = None ->
    pc s = Waiting ->
    wg s = 0 ->
    step s (mkState (shared s) (maxFlight s) Returned (sem s) (wg s)
              (workers s) None).

(** The states of a run of [RunOn(hosts, cmd, maxFlight, cfg)] started in
    world [w]. *)
Definition reachable (maxFlight : Z) (w : world) (s : state) : Prop :=
  rtc step (RunOn_enter maxFlight w) s.
End RunOn.

Definition is_active (g : goroutine) : bool :=
  match g with Active _ _ => true | _ => false end.

Definition holds_permit (g : goroutine) : bool :=
  match g with Exited _ _ => false | _ => true end.

Definition in_waitgroup (g : goroutine) : bool :=
  match g with Active _ _ | Deferred _ _ => true | _ => false end.

Definition goroutine_host (g : goroutine) : string :=
  match g with
  | Active h _ | Deferred h _ | Signalled h _ | Exited h _ => h
  end.

Definition goroutine_status (g : goroutine) : option (option error) :=
  match g with
  | Active _ _ => None
  | Deferred _ e | Signalled _ e | Exited _ e => Some e
  end.

(** The number of pipelines in flight: goroutines inside [Run]. *)
Definition active (s : state) : nat :=
  List.length (List.filter is_active (workers s)).

(** ** gossh.go: [printLines]

    [printLines] reads its stream through a [bufio.Scanner] with the default
    split function [ScanLines] and the default buffer.  The scanner is part
    of the Go standard library; it is modelled here as its documentation and
    code describe it: a token is cut at the first newline of the bytes not
    yet consumed, the newline and one carriage return before it are dropped,
    and the bytes of a token, newline included, have to fit in a buffer of
    [MaxScanTokenSize] bytes; when the buffer is full and holds no newline,
    scanning stops with [ErrTooLong].  The reader reports the end of the
    stream, or a read error, by a read of its own, after the last byte. *)

Definition MaxScanTokenSize : nat := 64 * 1024.

Definition ErrTooLong : error := OtherError "bufio.Scanner: token too long".

(** An [io.Reader]: the bytes it delivers and the error that ends it
    ([None] is [io.EOF]). *)
Record reader : Type := mkReader {
  bytes : list ascii;
  read_err : option error
}.

Definition newline : ascii := "010"%char.
Definition carriage_return : ascii := "013"%char.

Fixpoint dropCR (data : list ascii) : list ascii :=
  match data with
  | [] => []
  | [c] => if Ascii.eqb c carriage_return then [] else [c]
  | c :: rest => c :: dropCR rest
  end.

Definition Text (token : list ascii) : string :=
  string_of_list_ascii (dropCR token).

(** [scan_from maxTokenSize room line data]: the texts [scanner.Text()] of
    the successful calls of [scanner.Scan()] and the final [scanner.Err()],
    when [line] is held in the buffer, [room] bytes of the buffer are free
    and [data] is still to be read. *)
Fixpoint scan_from (maxTokenSize room : nat) (line data : list ascii)
  (end_err : option error) : list string * option error :=
  match data with
  | [] =>
      match room with
      | O => ([], Some ErrTooLong)
      | S _ =>
          match line with
          | [] => ([], end_err)
          | _ :: _ => ([Text line], end_err)
          end
      end
  | c :: rest =>
      match room with
      | O => ([], Some ErrTooLong)
      | S room' =>
          if Ascii.eqb c newline then
            let (texts, err) :=
              scan_from maxTokenSize maxTokenSize [] rest end_err in
            (Text line :: texts, err)
          else scan_from maxTokenSize room' (line ++ [c]) rest end_err
      end
  end.

Definition scan (r : reader) : list string * option error :=
  scan_from MaxScanTokenSize MaxScanTokenSize [] (bytes r) (read_err r).

(** One iteration of the loop of [printLines]. *)
Definition print_line (host stream text : string) : M unit :=
  emit (EvLock "stdoutMutex") ;;
  emit (EvStdout (host +:+ ":" +:+ stream +:+ ":" +:+ text)) ;;
  emit (EvUnlock "stdoutMutex").

Fixpoint print_each (host stream : string) (texts : list string) : M unit :=
  match texts with
  | [] => ret tt
  | text :: rest => print_line host stream text ;; print_each host stream rest
  end.

Definition printLines (host stream : string) (r : reader) : M unit :=
  let (texts, err) := scan r in
  print_each host stream texts ;;
  match err with
  | Some e =>
      emit (EvStderr ("gossh.printLines(" +:+ host +:+ ", " +:+ stream
                        +:+ "): " +:+ Error e))
  | None => ret tt
  end.

Definition do_PrintStdout (endpoint : string) (stream : reader) : M unit :=
  printLines endpoint "stdout" stream.

Definition do_PrintStderr (endpoint : string) (stream : reader) : M unit :=
  printLines endpoint "stderr" stream.


(** ** cmd/gossh/gorange.go: [expand] and [compress]

    The two functions wrap the range library (grange), which writes a
    numeric range [10..11]; [expand] rewrites [10-11] to [10..11] before the
    query and [compress] rewrites [10..11] back to [10-11].  The rewriting is
    [regexp.ReplaceAllString] with the patterns [(\d+)-(\d+)] and
    [(\d+)\.\.(\d+)]: the matches are found from left to right and do not
    overlap, and [\d+] takes all the digits there are.  The library itself is
    not part of the repository: its [Query] and [Compress] are parameters. *)

Definition is_digit (c : ascii) : bool :=
  match c with
  | "0" | "1" | "2" | "3" | "4" | "5" | "6" | "7" | "8" | "9" => true
  | _ => false
  end%char.

(** The digits at the head of [s], and what follows them. *)
Fixpoint digits (s : list ascii) : list ascii * list ascii :=
  match s with
  | [] => ([], [])
  | c :: rest =>
      if is_digit c then let (d, r) := digits rest in (c :: d, r)
      else ([], s)
  end.

Fixpoint strip_prefix (p s : list ascii) : option (list ascii) :=
  match p, s with
  | [], _ => Some s
  | _ :: _, [] => None
  | a :: p', b :: s' => if Ascii.eqb a b then strip_prefix p' s' else None
  end.

(** A match of [(\d+)sep(\d+)] at the head of [s]: the two groups and what
    follows the match. *)
Definition match_range (sep s : list ascii)
  : option (list ascii * list ascii * list ascii) :=
  match digits s with
  | ([], _) => None
  | (d1, r1) =>
      match strip_prefix sep r1 with
      | None => None
      | Some r2 =>
          match digits r2 with
          | ([], _) => None
          | (d2, r3) => Some (d1, d2, r3)
          end
      end
  end.

(** [ReplaceAllString] of the pattern [(\d+)sep(\d+)] with the template
    [${1}sep'${2}], on at most [fuel] bytes. *)
Fixpoint replace_ranges (fuel : nat) (sep sep' s : list ascii) : list ascii :=
  match fuel, s with
  | O, _ => s
  | _, [] => []
  | S fuel, c :: rest =>
      match match_range sep s with
      | Some (d1, d2, r) => d1 ++ sep' ++ d2 ++ replace_ranges fuel sep sep' r
      | None => c :: replace_ranges fuel sep sep' rest
      end
  end.

Definition ReplaceAllString (sep sep' : string) (src : string) : string :=
  let s := list_ascii_of_string src in
  string_of_list_ascii
    (replace_ranges (List.length s) (list_ascii_of_string sep)
       (list_ascii_of_string sep') s).

Definition dash_to_dots : string -> string := ReplaceAllString "-" "..".
Definition dots_to_dash : string -> string := ReplaceAllString ".." "-".

(** Some suffix of [s] starts with a match of [(\d+)sep(\d+)]. *)
Fixpoint has_range (sep s : list ascii) : bool :=
  match s with
  | [] => false
  | _ :: rest =>
      match match_range sep s with
      | Some _ => true
      | None => has_range sep rest
      end
  end.

Section Grange.
(** [grange.State.Query]: the set of hosts of a range expression, or an
    error; [grange.Compress]: a range expression for a set of hosts. *)
Variable Query : string -> gset string + error.
Variable Compress : gset string -> string.

(** [expand] returns the elements of the set in the order [res.Iter()]
    delivers them, which the set library leaves open. *)
Definition expand (rangeStr : string) (result : list string + error) : Prop :=
  match Query (dash_to_dots rangeStr) with
  | inr err => result = inr err
  | inl res => exists hosts, result = inl hosts /\ hosts ≡ₚ elements res
  end.

Definition compress (nodes : list string) : string :=
  dots_to_dash (Compress (list_to_set nodes)).
End Grange.



Definition dash : list ascii := list_ascii_of_string "-".
Definition dots : list ascii := list_ascii_of_string "..".


(** ** cmd/gossh/main.go

    [main] is modelled up to its call of [RunOn], and from the return of
    [RunOn] on.  What it reads from the operating system, from the key
    files and from the agent is a [process].  The flags of type [float64]
    are values of a type [float64] with the conversion [millis], the [int64]
    that [time.Duration(x*1000)] is. *)

Module flags.
Record t (float64 : Type) : Type := mk {
  identities : string;
  useAgent : bool;
  login : string;
  port : string;
  rangeExpr : string;
  hostsFile : string;
  maxFlight : Z;
  connTimeout : float64;
  sessionTimeout : float64;
  displayVersion : bool;
  Args : list string
}.
Arguments mk {float64}.
Arguments identities {float64}.
Arguments useAgent {float64}.
Arguments login {float64}.
Arguments port {float64}.
Arguments rangeExpr {float64}.
Arguments hostsFile {float64}.
Arguments maxFlight {float64}.
Arguments connTimeout {float64}.
Arguments sessionTimeout {float64}.
Arguments displayVersion {float64}.
Arguments Args {float64}.

(** The flags of a command line that differs in the value of [-p] only. *)
Definition with_port {float64} (p : string) (f : t float64) : t float64 :=
  mk (identities f) (useAgent f) (login f) p (rangeExpr f) (hostsFile f)
     (maxFlight f) (connTimeout f) (sessionTimeout f) (displayVersion f)
     (Args f).
End flags.

Record process : Type := mkProcess {
  SSH_AUTH_SOCK : string;
  Args0 : string;
  Version : string;
  ReadFile : string -> string + error;
  Stdin : string + error;
  exists_ : string -> bool;
  IdentityFile : string -> AuthMethod + error;
  AgentKeys : string -> AuthMethod + error
}.

Definition wrap64 (z : Z) : Z := (z + 2 ^ 63) mod 2 ^ 64 - 2 ^ 63.

Definition Millisecond : Z := 1000000.

Inductive setup : Type :=
| Exit (code : Z)
| CallRunOn (hosts : list string) (cmd : string) (maxFlight : Z).

Section Main.
Variable float64 : Type.
Variable millis : float64 -> Z.
Variable Query : string -> gset string + error.
Variable Compress : gset string -> string.
(** [strings.Fields]. *)
Variable Fields : string -> list string.
Variable os : process.

Definition print (prefix msg : string) : M unit :=
  match rev (list_ascii_of_string msg) with
  | [] => panic "runtime error: index out of range [-1]"
  | last :: _ =>
      emit (EvStderr (prefix +:+ (if Ascii.eqb last newline then msg
                                  else msg +:+ String newline "")))
  end.

Definition fatal (msg : string) : M setup :=
  print "fatal: " msg ;; mret (Exit 255).

Definition warn (msg : string) : M unit := print "warn: " msg.

Fixpoint identityFiles (methods : list AuthMethod) (files : list string)
  : M (list AuthMethod) :=
  match files with
  | [] => mret methods
  | k :: files =>
      match IdentityFile os k with
      | inr err => warn (Error err) ;; identityFiles methods files
      | inl m => identityFiles (methods ++ [m]) files
      end
  end.

Definition agentKeys (methods : list AuthMethod) (authSock : string)
  : M (list AuthMethod) :=
  if exists_ os authSock then
    match AgentKeys os authSock with
    | inr err => warn (Error err) ;; mret methods
    | inl agentMethod => mret (methods ++ [agentMethod])
    end
  else mret methods.

Definition readFileOrStdin (file : string) : string + error :=
  if String.eqb file "-" then Stdin os else ReadFile os file.

Definition targets (rangeExpr hostsFile : string)
  (result : list string + error) : Prop :=
  if negb (String.eqb rangeExpr "") then expand Query rangeExpr result
  else if negb (String.eqb hostsFile "") then
    match readFileOrStdin hostsFile with
    | inr err => result = inr err
    | inl data => result = inl (Fields data)
    end
  else result =
       inr (OtherError "missing argument, one of range, hostsFile required").

(** [main] from the call of [targets] to the call of [RunOn]. *)
Definition main_configure (f : flags.t float64)
  (hosts : list string + error) : M setup :=
  let authSock := SSH_AUTH_SOCK os in
  let cmd := String.concat " " (flags.Args f) in
  match hosts with
  | inr err => fatal (Error err)
  | inl hosts =>
      methods ← (if negb (String.eqb (flags.identities f) "")
                 then identityFiles [] [flags.identities f]
                 else mret []);
      methods ← (if flags.useAgent f then agentKeys methods authSock
                 else mret methods);
      match methods with
      | [] => fatal "no authentication methods remain"
      | _ :: _ =>
          logger ← GetLogger "main" 2;
          modify (set_cfg
            (Config.mk (flags.login f) methods
               (wrap64 (Millisecond * millis (flags.connTimeout f)))
               (wrap64 (Millisecond * millis (flags.sessionTimeout f)))
               (Some PrintStdout) (Some PrintStderr)
               (Some printAndCollateStatus) (Some logger))) ;;
          mret (CallRunOn hosts cmd (flags.maxFlight f))
      end
  end.

(** [main] up to the call of [RunOn], started in world [w]: it exits, or
    calls [RunOn] in the world [w']. *)
Definition main_setup (f : flags.t float64) (w : world)
  (result : outcome setup) (w' : world) : Prop :=
  if flags.displayVersion f then
    (result, w') =
    (emit (EvStdout (Args0 os +:+ " " +:+ Version os)) ;; mret (Exit 0)) w
  else
    exists hosts,
      targets (flags.rangeExpr f) (flags.hostsFile f) hosts /\
      (result, w') = main_configure f hosts w.

(** [main] after the return of [RunOn]. *)
Definition main_report : M unit :=
  w ← get;
  emit (EvStdout "") ;;
  emit (EvStdout ("succeeded: " +:+ compress Compress (succeeded w))) ;;
  emit (EvStdout ("failed: " +:+ compress Compress (failed w))).

(** The runs of the program: the world it ends in and its exit code. *)
Definition main (net : nat -> remote) (f : flags.t float64) (w : world)
  (code : Z) (final : world) : Prop :=
  exists result w',
    main_setup f w result w' /\
    match result with
    | Panic _ => code = 2 /\ final = w'
    | Ret (Exit c) => code = c /\ final = w'
    | Ret (CallRunOn hosts cmd maxFlight) =>
        exists s,
          reachable hosts cmd net maxFlight w' s /\
          ((pc s = Returned /\ code = 0 /\ final = (main_report (shared s)).2)
           \/ (crashed s <> None /\ code = 2 /\ final = shared s))
    end.
End Main.

(** ** The terminal status of a pipeline

    What [Run(host, cmd, cfg)] returns is decided by the remote: the first
    library call that fails, or else the case [select] takes. *)

Definition timer_duration (sessionTimeout : Z) : Z :=
  if sessionTimeout =? 0 then MaxInt64 else sessionTimeout.

Definition pipe_status {H} (handler : option H) (pipe : option error)
  : option error :=
  match handler with
  | Some _ => pipe
  | None => None
  end.

Definition session_status (handleStdout handleStderr : option OutputHandler)
  (sessionTimeout : Z) (r : remote) : option error :=
  match session r with
  | Some err => Some err
  | None =>
  match pipe_status handleStdout (outpipe r) with
  | Some err => Some err
  | None =>
  match pipe_status handleStderr (errpipe r) with
  | Some err => Some err
  | None =>
  match started r with
  | Some err => Some err
  | None =>
  match select (timer_duration sessionTimeout) r with
  | case_timeout => Some SessionTimeoutError
  | case_status exit => exit
  end end end end end.

Definition dial_status (r : remote) : option error :=
  match tcp r with
  | Some err => Some err
  | None => handshake r
  end.

Definition pipeline_status (c : Config.t) (r : remote) : option error :=
  match dial_status r with
  | Some err => Some err
  | None =>
      session_status (Config.StdoutHandler c) (Config.StderrHandler c)
        (Config.SessionTimeout c) r
  end.

(** The [Client] a successful [dial] builds from the [Config]. *)
Definition new_client (host : string) (c : Config.t) (r : remote) : Client.t :=
  Client.mk (Config.Logger c) r host (Config.SessionTimeout c)
    (Config.StdoutHandler c) (Config.StderrHandler c) (Config.StatusHandler c).

(** The invocations of status handlers in a trace. *)
Definition status_call (e : event)
  : option (StatusHandler * string * option error) :=
  match e with
  | EvStatus h host status => Some (h, host, status)
  | _ => None
  end.

Definition status_calls (t : list event)
  : list (StatusHandler * string * option error) :=
  omap status_call t.

(** [t'] is [t] followed by events in which the status handlers are called
    as [calls] lists. *)
Definition trace_ext (t t' : list event)
  (calls : list (StatusHandler * string * option error)) : Prop :=
  exists evs, t' = t ++ evs /\ status_calls evs = calls.

(** [w'] is [w] with more events, none of them a status handler call. *)
Definition quiet (w w' : world) : Prop :=
  heap w' = heap w /\ cfg w' = cfg w /\ clock w' = clock w /\
  succeeded w' = succeeded w /\ failed w' = failed w /\
  trace_ext (trace w) (trace w') [].

(** The [*Logger] of the shared [Config] is nil or points to a logger. *)
Definition logger_ok (w : world) : Prop :=
  match Config.Logger (cfg w) with
  | Some i => (i < List.length (heap w))%nat
  | None => True
  end.

(** The hosts a call of [printAndCollateStatus] appends to [succeeded] and
    to [failed]. *)
Definition collated_ok (h : StatusHandler) (host : string)
  (status : option error) : list string :=
  match h, status with
  | printAndCollateStatus, None => [host]
  | _, _ => []
  end.

Definition collated_failed (h : StatusHandler) (host : string)
  (status : option error) : list string :=
  match h, status with
  | printAndCollateStatus, Some _ => [host]
  | _, _ => []
  end.

(** [w'] is [w] after the status handler calls [calls], which collated
    [ok] into [succeeded] and [ko] into [failed]. *)
Record effects (w w' : world)
  (calls : list (StatusHandler * string * option error))
  (ok ko : list string) : Prop := mkEffects {
  eff_heap : heap w' = heap w;
  eff_cfg : cfg w' = cfg w;
  eff_clock : clock w' = clock w;
  eff_trace : trace_ext (trace w) (trace w') calls;
  eff_succeeded : succeeded w' = succeeded w ++ ok;
  eff_failed : failed w' = failed w ++ ko
}.

(** What [Dial(host, cfg)] returns. *)
Definition Dial_result (host : string) (w : world) (r : remote)
  : option Client.t * option error :=
  match dial_status r with
  | Some err =>
      match Config.StatusHandler (cfg w) with
      | Some _ => (None, Some err)
      | None => (None, None)
      end
  | None =>
      (Some (new_client host
               (Config.set_Logger (Some (List.length (heap w))) (cfg w)) r),
       None)
  end.

(** The status handler call of [Dial]. *)
Definition Dial_calls (host : string) (w : world) (r : remote)
  : list (StatusHandler * string * option error) :=
  match dial_status r, Config.StatusHandler (cfg w) with
  | Some err, Some h => [(h, host, Some err)]
  | _, _ => []
  end.

Definition Dial_failed (host : string) (w : world) (r : remote) : list string :=
  match dial_status r, Config.StatusHandler (cfg w) with
  | Some err, Some h => collated_failed h host (Some err)
  | _, _ => []
  end.

(** The logger [Dial] stores in the shared [Config] for [host]. *)
Definition host_logger (host : string) (w : world) (l : Logger) : Prop :=
  subject l = host /\
  match Config.Logger (cfg w) with
  | Some i => exists old, heap w !! i = Some old /\
                          start l = start old /\ debugLevel l = debugLevel old
  | None => start l = clock w /\ debugLevel l = 2
  end.

(** What a pipeline leaves behind in the world. *)
Record Run_post (h : StatusHandler) (host : string) (status : option error)
  (w w' : world) : Prop := mkRun_post {
  post_cfg : cfg w' = Config.set_Logger (Some (List.length (heap w))) (cfg w);
  post_heap : exists l, heap w' = heap w ++ [l] /\ host_logger host w l;
  post_clock : clock w' = clock w;
  post_trace : trace_ext (trace w) (trace w') [(h, host, status)];
  post_succeeded : succeeded w' = succeeded w ++ collated_ok h host status;
  post_failed : failed w' = failed w ++ collated_failed h host status
}.

(** What [Dial] leaves behind in the world. *)
Record Dial_post (host : string) (r : remote) (w w' : world) : Prop :=
  mkDial_post {
  dpost_cfg : cfg w' = Config.set_Logger (Some (List.length (heap w))) (cfg w);
  dpost_heap : exists l, heap w' = heap w ++ [l] /\ host_logger host w l;
  dpost_clock : clock w' = clock w;
  dpost_trace : trace_ext (trace w) (trace w') (Dial_calls host w r);
  dpost_succeeded : succeeded w' = succeeded w;
  dpost_failed : failed w' = failed w ++ Dial_failed host w r
}.

(** The fields of a [Config] other than [Logger]. *)
Definition settings (c : Config.t) : Config.t := Config.set_Logger None c.


(** ** The race of [Client.run] *)

(** The session is started: [NewSession], the pipes of the configured
    handlers and [Start] all succeed. *)
Definition session_started (c : Client.t) : Prop :=
  session (Client.client c) = None /\
  pipe_status (Client.handleStdout c) (outpipe (Client.client c)) = None /\
  pipe_status (Client.handleStderr c) (errpipe (Client.client c)) = None /\
  started (Client.client c) = None.

(** The timer armed for [d] fires before [sess.Wait] returns. *)
Definition timer_first (d : Z) (r : remote) : Prop :=
  match exit r with
  | None => True
  | Some (t, _) => Z.max 0 d < t
  end.

(** [sess.Wait] returns [status] before the timer armed for [d] fires. *)
Definition exit_first (d : Z) (r : remote) (status : option error) : Prop :=
  exists t, exit r = Some (t, status) /\ t < Z.max 0 d.

(** ** What a pipeline may change in the world *)

(** [w'] has the settings and the clock of [w], and the loggers of [w] at
    their locations, unchanged. *)
Definition frame (w w' : world) : Prop :=
  settings (cfg w') = settings (cfg w) /\
  clock w' = clock w /\
  exists ls, heap w' = heap w ++ ls.

Definition framed {A} (m : M A) : Prop := forall w, frame w (m w).2.

(** ** Addresses *)

(** The host and the port of an address [host:port]. *)
Fixpoint host_port (addr : string) : option (string * string) :=
  match addr with
  | EmptyString => None
  | String c rest =>
      if Ascii.eqb c ":" then Some (EmptyString, rest)
      else match host_port rest with
           | Some (h, p) => Some (String c h, p)
           | None => None
           end
  end.

(** ** Invariants of [RunOn] *)

(** The results of the pipelines that have run, in dispatch order. *)
Definition done_result (g : goroutine) : option (string * option error) :=
  match g with
  | Active _ _ => None
  | Deferred h e | Signalled h e | Exited h e => Some (h, e)
  end.

Definition done_results (ws : list goroutine)
  : list (string * option error) :=
  omap done_result ws.

(** The status every pipeline of a run ends with, in list order. *)
Definition results (hosts : list string) (net : nat -> remote) (c : Config.t)
  : list (string * option error) :=
  imap (fun i host => (host, pipeline_status c (net i))) hosts.

Definition as_call (h : StatusHandler) (hr : string * option error)
  : StatusHandler * string * option error :=
  (h, hr.1, hr.2).

Definition ok_host (hr : string * option error) : option string :=
  match hr.2 with
  | None => Some hr.1
  | Some _ => None
  end.

Definition failed_host (hr : string * option error) : option string :=
  match hr.2 with
  | None => None
  | Some _ => Some hr.1
  end.

(** The counters of [RunOn] count goroutines, the ceiling is respected, and
    the goroutines were started for the hosts in list order. *)
Record counted (hosts : list string) (net : nat -> remote) (C : Z)
  (s : state) : Prop := mkCounted {
  cnt_cap : maxFlight s = (if C <? 1 then 1 else C);
  cnt_sem : sem s = List.length (List.filter holds_permit (workers s));
  cnt_wg : wg s =
           Z.of_nat (List.length (List.filter in_waitgroup (workers s)));
  cnt_le : Z.of_nat (sem s) <= maxFlight s;
  cnt_hosts : goroutine_host <$> workers s =
              take (List.length (workers s)) hosts;
  cnt_net : forall i host r, workers s !! i = Some (Active host r) -> r = net i;
  cnt_pc : pc s <> Looping -> List.length (workers s) = List.length hosts;
  cnt_ret : pc s = Returned -> wg s = 0
}.

(** With status handler [h] configured, no pipeline panics, the settings
    stay, and the handler has been called once for every pipeline that ran,
    with the status of that pipeline. *)
Record collated (hosts : list string) (net : nat -> remote) (w0 : world)
  (h : StatusHandler) (s : state) : Prop := mkCollated {
  col_alive : crashed s = None;
  col_logger : logger_ok (shared s);
  col_settings : settings (cfg (shared s)) = settings (cfg w0);
  col_status : forall i g hr,
    workers s !! i = Some g -> done_result g = Some hr ->
    hr.2 = pipeline_status (cfg w0) (net i);
  col_calls : exists calls,
    trace_ext (trace w0) (trace (shared s)) calls /\
    calls ≡ₚ as_call h <$> done_results (workers s);
  col_succeeded : exists ok,
    succeeded (shared s) = succeeded w0 ++ ok /\
    ok ≡ₚ done_results (workers s) ≫= (fun hr => collated_ok h hr.1 hr.2);
  col_failed : exists ko,
    failed (shared s) = failed w0 ++ ko /\
    ko ≡ₚ done_results (workers s) ≫= (fun hr => collated_failed h hr.1 hr.2)
}.

(** A bound on the number of steps left. *)
Definition goroutine_weight (g : goroutine) : nat :=
  match g with
  | Active _ _ => 3
  | Deferred _ _ => 2
  | Signalled _ _ => 1
  | Exited _ _ => 0
  end.

Definition pc_weight (p : main_pc) : nat :=
  match p with
  | Looping => 2
  | Waiting => 1
  | Returned => 0
  end.

Definition steps_left (hosts : list string) (s : state) : nat :=
  match crashed s with
  | Some _ => 0
  | None =>
      S (4 * (List.length hosts - List.length (workers s))
         + list_sum (goroutine_weight <$> workers s)
         + pc_weight (pc s))
  end.

(** ** Sample inputs *)

Definition sample_cfg (handler : option StatusHandler) (logger : option loc)
  : Config.t :=
  Config.mk "root" [] 10000000000 0 (Some PrintStdout) (Some PrintStderr)
    handler logger.

(** The world [main] calls [RunOn] in. *)
Definition sample_world : world :=
  mkWorld [mkLogger 0 "main" 2]
    (sample_cfg (Some printAndCollateStatus) (Some 0%nat)) 0 [] [] [].

(** A library caller that configures no status handler. *)
Definition world_without_handler : world :=
  mkWorld [mkLogger 0 "main" 2] (sample_cfg None (Some 0%nat)) 0 [] [] [].

(** The command exits 0 after 5ns. *)
Definition remote_ok : remote :=
  mkRemote None None None None None None (Some (5, None)) false.

(** The TCP connection is refused. *)
Definition remote_refused : remote :=
  mkRemote (Some (OtherError "connection refused")) None None None None None
    None false.

(** A connected client with a session timeout of 3ns whose command would
    exit 0 after 5ns. *)
Definition sample_client : Client.t :=
  Client.mk (Some 0%nat) remote_ok "h1" 3 (Some PrintStdout) (Some PrintStderr)
    (Some printAndCollateStatus).

(** A range library that knows one range. *)
Definition sample_hosts : gset string :=
  {[ "host10.example"; "host11.example" ]}.

Definition sample_Query (query : string) : gset string + error :=
  if String.eqb query "host10..11.example" then inl sample_hosts
  else inr (OtherError "unknown range").

Definition sample_Compress (nodes : gset string) : string :=
  "host10..11.example".

(** The session opens but its stdout pipe cannot be obtained. *)
Definition remote_pipe_fails : remote :=
  mkRemote None None None (Some (OtherError "stdout already set")) None None
    (Some (5, None)) false.

Definition client_pipe_fails : Client.t :=
  Client.mk (Some 0%nat) remote_pipe_fails "h1" 0 (Some PrintStdout)
    (Some PrintStderr) (Some printAndCollateStatus).

(** ** Events of the session runner *)

(** The calls on the session of a connection. *)
Definition is_session_event (e : event) : bool :=
  match e with
  | EvNewSession | EvStdoutPipe | EvStderrPipe | EvGo _ _ | EvStart _
  | EvNewTimer _ | EvTimerStop | EvSignal _ | EvSessionClose => true
  | _ => false
  end.

(** The events of a started command. *)
Definition is_command_event (e : event) : bool :=
  match e with
  | EvGo _ _ | EvStart _ | EvNewTimer _ | EvTimerStop | EvSignal _ => true
  | _ => false
  end.

Definition is_client_close (e : event) : bool :=
  match e with
  | EvClientClose => true
  | _ => false
  end.

(** ** Lines of a stream *)

(** The last line of a stream, when no newline ends it. *)
Definition unterminated (last : list ascii) : list (list ascii) :=
  match last with
  | [] => []
  | _ :: _ => [last]
  end.

(** One iteration of the loop of [printLines], as events. *)
Definition line_events (host stream : string) (l : list ascii) : list event :=
  [EvLock "stdoutMutex";
   EvStdout (host +:+ ":" +:+ stream +:+ ":" +:+ Text l);
   EvUnlock "stdoutMutex"].

(** ** Messages of the command *)

Definition is_stderr (e : event) : bool :=
  match e with
  | EvStderr _ => true
  | _ => false
  end.

(** [w'] is [w] with more lines on standard error, and nothing else. *)
Definition stderr_only (w w' : world) : Prop :=
  heap w' = heap w /\ cfg w' = cfg w /\ clock w' = clock w /\
  succeeded w' = succeeded w /\ failed w' = failed w /\
  exists evs, trace w' = trace w ++ evs /\
              Forall (fun e => is_stderr e = true) evs.

Definition warns {A} (m : M A) : Prop := forall w, stderr_only w (m w).2.

(** The last byte of a string. *)
Definition last_byte (s : string) : option ascii :=
  last (list_ascii_of_string s).

(** The method of a key file that can be read. *)
Definition readable (os : process) (k : string) : option AuthMethod :=
  match IdentityFile os k with
  | inl m => Some m
  | inr _ => None
  end.

(** The key files that cannot be read. *)
Definition unreadable (os : process) (k : string) : bool :=
  match IdentityFile os k with
  | inl _ => false
  | inr _ => true
  end.

(** The errors of the process and of the range library have a message. *)
Record with_messages (Query : string -> gset string + error) (os : process)
  : Prop := mkWith_messages {
  msg_Query : forall q e, Query q = inr e -> Error e <> "";
  msg_ReadFile : forall p e, ReadFile os p = inr e -> Error e <> "";
  msg_Stdin : forall e, Stdin os = inr e -> Error e <> "";
  msg_IdentityFile : forall k e, IdentityFile os k = inr e -> Error e <> "";
  msg_AgentKeys : forall a e, AgentKeys os a = inr e -> Error e <> ""
}.

(** A process with an agent, no readable key file, and one host on its
    standard input. *)
Definition sample_os : process :=
  mkProcess "/tmp/agent.sock" "gossh" "1.0"
    (fun _ => inr (OtherError "no such file or directory"))
    (inl "h1")
    (fun _ => true)
    (fun _ => inr (OtherError "no such file or directory"))
    (fun _ => inl 7%nat).

(** The same process without an agent. *)
Definition sample_os_no_agent : process :=
  mkProcess "" "gossh" "1.0"
    (fun _ => inr (OtherError "no such file or directory"))
    (inl "h1")
    (fun _ => false)
    (fun _ => inr (OtherError "no such file or directory"))
    (fun _ => inr (OtherError "agent not reachable")).

(** [strings.Fields] on a text of one field. *)
Definition sample_Fields (data : string) : list string := [data].

(** [gossh -i id_rsa -H - uptime], with timeouts in whole seconds. *)
Definition sample_flags : flags.t Z :=
  flags.mk "id_rsa" true "root" "22" "" "-" 100 10 0 false ["uptime"].

Definition sample_millis (seconds : Z) : Z := 1000 * seconds.

(** The world the program starts in. *)
Definition initial_world : world :=
  mkWorld [] (Config.mk "" [] 0 0 None None None None) 0 [] [] [].

(** The world in which [main] calls [RunOn]: the [Config] literal is the
    shared [Config], with a new logger. *)
Definition configured {float64} (millis : float64 -> Z)
  (f : flags.t float64) (methods : list AuthMethod)
  (w1 : world) : world :=
  set_cfg
    (Config.mk (flags.login f) methods
       (wrap64 (Millisecond * millis (flags.connTimeout f)))
       (wrap64 (Millisecond * millis (flags.sessionTimeout f)))
       (Some PrintStdout) (Some PrintStderr)
       (Some printAndCollateStatus) (Some (List.length (heap w1))))
    (set_heap (heap w1 ++ [mkLogger (clock w1) "main" 2]) w1).

(** The method of the agent, when its socket exists and it answers. *)
Definition agent_method (os : process) (authSock : string)
  : list AuthMethod :=
  if exists_ os authSock then
    match AgentKeys os authSock with
    | inl m => [m]
    | inr _ => []
    end
  else [].

(** The authentication methods a command line gives. *)
Definition credentials {float64} (os : process) (f : flags.t float64)
  : list AuthMethod :=
  (if negb (String.eqb (flags.identities f) "")
   then omap (readable os) [flags.identities f] else [])
  ++ (if flags.useAgent f then agent_method os (SSH_AUTH_SOCK os) else []).

(** * Proofs *)

(** ** A weakest-precondition calculus for [M] *)

Definition wp {A} (m : M A) (Q : A -> world -> Prop) (w : world) : Prop :=
  match m w with
  | (Ret a, w') => Q a w'
  | (Panic _, _) => False
  end.

Lemma wp_run {A} (m : M A) Q w :
  wp m Q w -> exists a w', m w = (Ret a, w') /\ Q a w'.
Proof.
  unfold wp. destruct (m w) as [[a|msg] w']; [eauto | tauto].
Qed.

Lemma wp_mono {A} (m : M A) (Q Q' : A -> world -> Prop) w :
  wp m Q w -> (forall a w', Q a w' -> Q' a w') -> wp m Q' w.
Proof.
  unfold wp. destruct (m w) as [[a|msg] w']; [auto | tauto].
Qed.

Lemma wp_ret {A} (a : A) Q w : Q a w -> wp (mret a) Q w.
Proof. exact (fun H => H). Qed.

Lemma wp_bind {A B} (m : M A) (k : A -> M B) Q w :
  wp m (fun a w' => wp (k a) Q w') w -> wp (m ≫= k) Q w.
Proof.
  unfold wp, mbind, M_bind, bind.
  destruct (m w) as [[a|msg] w']; [auto | tauto].
Qed.

Lemma wp_get Q w : Q w w -> wp get Q w.
Proof. exact (fun H => H). Qed.

Lemma wp_modify f Q w : Q tt (f w) -> wp (modify f) Q w.
Proof. exact (fun H => H). Qed.

Lemma wp_emit e Q w : Q tt (set_trace (trace w ++ [e]) w) -> wp (emit e) Q w.
Proof. exact (fun H => H). Qed.

Lemma wp_alloc l Q w :
  Q (List.length (heap w)) (set_heap (heap w ++ [l]) w) -> wp (alloc l) Q w.
Proof. exact (fun H => H). Qed.

Lemma wp_deref i l Q w :
  heap w !! i = Some l -> Q l w -> wp (deref (Some i)) Q w.
Proof. unfold wp, deref. intros ->. auto. Qed.

Lemma wp_Debug i l msg Q w :
  heap w !! i = Some l ->
  Q tt (set_trace (trace w ++ [EvLog (subject l) msg]) w) ->
  wp (Debug (Some i) msg) Q w.
Proof.
  intros Hl HQ. unfold Debug. apply wp_bind. eapply wp_deref; [eassumption|].
  apply wp_emit, HQ.
Qed.

Lemma wp_defer {A} (d : M unit) (body : M A) Q w :
  wp body (fun a w' => wp d (fun _ w'' => Q a w'') w') w ->
  wp (defer d body) Q w.
Proof.
  unfold wp, defer. destruct (body w) as [[a|msg] w']; [|tauto].
  destruct (d w') as [[[]|msg] w'']; auto.
Qed.

Lemma lookup_snoc {A} (l : list A) (x : A) :
  (l ++ [x]) !! List.length l = Some x.
Proof. rewrite lookup_app_r by lia. now rewrite Nat.sub_diag. Qed.

(** ** [Dial] and [Run] *)

Arguments wp : simpl never.
Arguments Debug : simpl never.
Arguments emit : simpl never.
Arguments alloc : simpl never.
Arguments deref : simpl never.
Arguments defer : simpl never.
Arguments select : simpl never.

Ltac wsimpl :=
  cbn [heap cfg clock trace succeeded failed
       set_heap set_cfg set_trace set_succeeded set_failed
       Config.Login Config.AuthMethods Config.ConnectTimeout
       Config.SessionTimeout Config.StdoutHandler Config.StderrHandler
       Config.StatusHandler Config.Logger Config.set_Logger
       Client.logger Client.client Client.host Client.sessionTimeout
       Client.handleStdout Client.handleStderr Client.handleStatus
       fst snd new_client] in *.

Ltac wp_step :=
  lazymatch goal with
  | |- wp (_ ≫= _) _ _ => apply wp_bind
  | |- wp get _ _ => apply wp_get
  | |- wp (modify _) _ _ => apply wp_modify
  | |- wp (emit _) _ _ => apply wp_emit
  | |- wp (alloc _) _ _ => apply wp_alloc
  | |- wp (ret _) _ _ => apply wp_ret
  | |- wp (mret _) _ _ => apply wp_ret
  | |- wp (defer _ _) _ _ => apply wp_defer
  | |- wp (Debug _ _) _ _ => eapply wp_Debug; [wsimpl; eassumption|]
  | |- wp (deref _) _ _ => eapply wp_deref; [wsimpl; eassumption|]
  | |- wp (match ?x with _ => _ end) _ _ => destruct x
  | |- wp (if ?x then _ else _) _ _ => destruct x
  end; wsimpl.

Lemma status_calls_app t1 t2 :
  status_calls (t1 ++ t2) = status_calls t1 ++ status_calls t2.
Proof. apply omap_app. Qed.

Lemma trace_ext_refl t : trace_ext t t [].
Proof. exists []. split; [symmetry; apply app_nil_r | reflexivity]. Qed.

Lemma trace_ext_trans t1 t2 t3 c1 c2 :
  trace_ext t1 t2 c1 -> trace_ext t2 t3 c2 -> trace_ext t1 t3 (c1 ++ c2).
Proof.
  intros (e1 & -> & H1) (e2 & -> & H2). exists (e1 ++ e2). split.
  - symmetry. apply app_assoc.
  - rewrite status_calls_app. congruence.
Qed.

Lemma trace_ext_snoc t t' c e :
  status_call e = None -> trace_ext t t' c -> trace_ext t (t' ++ [e]) c.
Proof.
  intros He H. replace c with (c ++ []) by apply app_nil_r.
  eapply trace_ext_trans; [exact H|]. exists [e]. split; [reflexivity|].
  unfold status_calls. cbn. now rewrite He.
Qed.

Lemma trace_ext_status t t' c h host status :
  trace_ext t t' c ->
  trace_ext t (t' ++ [EvStatus h host status]) (c ++ [(h, host, status)]).
Proof.
  intros H. eapply trace_ext_trans; [exact H|]. now exists [EvStatus h host status].
Qed.

Ltac trace_done :=
  repeat (apply trace_ext_snoc; [reflexivity|]); apply trace_ext_refl.

Ltac quiet_done :=
  split; [reflexivity|]; repeat (split; [reflexivity|]); trace_done.

Lemma quiet_refl w : quiet w w.
Proof. repeat (split; [reflexivity|]). apply trace_ext_refl. Qed.

Lemma quiet_trans w1 w2 w3 : quiet w1 w2 -> quiet w2 w3 -> quiet w1 w3.
Proof.
  intros (? & ? & ? & ? & ? & Ht1) (? & ? & ? & ? & ? & Ht2).
  repeat (split; [congruence|]).
  change (@nil (StatusHandler * string * option error)) with
    (@nil (StatusHandler * string * option error) ++ []).
  eapply trace_ext_trans; eassumption.
Qed.

Lemma dial_spec host r w i lg :
  Config.Logger (cfg w) = Some i ->
  heap w !! i = Some lg ->
  wp (dial host r)
     (fun res w' =>
        res = match dial_status r with
              | Some err => (None, Some err)
              | None => (Some (new_client host (cfg w) r), None)
              end /\ quiet w w') w.
Proof.
  intros Hlog Hlg. unfold dial, dial_status, new_client.
  destruct w as [hp c clk tr su fa]; wsimpl.
  do 2 wp_step. rewrite Hlog.
  repeat wp_step; quiet_done.
Qed.

Lemma Client_run_spec c cmd w i lg :
  Client.logger c = Some i ->
  heap w !! i = Some lg ->
  wp (Client.run (Some c) cmd)
     (fun status w' =>
        status = session_status (Client.handleStdout c) (Client.handleStderr c)
                   (Client.sessionTimeout c) (Client.client c) /\
        quiet w w') w.
Proof.
  intros Hlog Hlg.
  unfold Client.run, Client.open_pipe, session_status, pipe_status, timer_duration.
  destruct w as [hp cf clk tr su fa]; wsimpl. rewrite Hlog.
  repeat wp_step; quiet_done.
Qed.

Lemma quiet_effects w w' : quiet w w' -> effects w w' [] [] [].
Proof.
  intros (? & ? & ? & Hs & Hf & ?). split; try assumption.
  - now rewrite Hs, app_nil_r.
  - now rewrite Hf, app_nil_r.
Qed.

Lemma effects_trans w1 w2 w3 c1 c2 o1 o2 k1 k2 :
  effects w1 w2 c1 o1 k1 -> effects w2 w3 c2 o2 k2 ->
  effects w1 w3 (c1 ++ c2) (o1 ++ o2) (k1 ++ k2).
Proof.
  intros [] []. split; try congruence.
  - eapply trace_ext_trans; eassumption.
  - rewrite app_assoc. congruence.
  - rewrite app_assoc. congruence.
Qed.

Lemma quiet_then_effects w1 w2 w3 c o k :
  quiet w1 w2 -> effects w2 w3 c o k -> effects w1 w3 c o k.
Proof.
  intros H1 H2. apply quiet_effects in H1.
  exact (effects_trans _ _ _ _ _ _ _ _ _ H1 H2).
Qed.

Lemma effects_then_quiet w1 w2 w3 c o k :
  effects w1 w2 c o k -> quiet w2 w3 -> effects w1 w3 c o k.
Proof.
  intros H1 H2. apply quiet_effects in H2.
  pose proof (effects_trans _ _ _ _ _ _ _ _ _ H1 H2) as H.
  now rewrite !app_nil_r in H.
Qed.

Lemma call_status_spec h host status w :
  wp (call_status h host status)
     (fun _ w' => effects w w' [(h, host, status)]
                    (collated_ok h host status)
                    (collated_failed h host status)) w.
Proof.
  unfold call_status, do_printAndCollateStatus, do_PrintStatus.
  destruct w as [hp c clk tr su fa].
  destruct h, status; repeat wp_step;
    (split; wsimpl; cbn [collated_ok collated_failed];
     rewrite ?app_nil_r; try reflexivity;
     repeat (apply trace_ext_snoc; [reflexivity|]);
     apply (trace_ext_status _ _ []), trace_ext_refl).
Qed.

Ltac chain := repeat (etransitivity; [eassumption|]); first [eassumption | reflexivity].

Lemma Dial_spec host r w :
  logger_ok w ->
  wp (Dial host r)
     (fun res w' => res = Dial_result host w r /\ Dial_post host r w w') w.
Proof.
  intros Hok. unfold Dial, Dial_result, Dial_calls, Dial_failed, logger_ok in *.
  destruct w as [hp c clk tr su fa]; wsimpl.
  apply wp_bind, wp_get. wsimpl. apply wp_bind.
  assert (Hl : exists l,
    host_logger host (mkWorld hp c clk tr su fa) l /\
    wp (match Config.Logger c with
        | Some _ => WithSubject (Config.Logger c) host
        | None => GetLogger host 2
        end)
       (fun i w' => i = List.length hp /\
                    w' = mkWorld (hp ++ [l]) c clk tr su fa)
       (mkWorld hp c clk tr su fa)).
  { unfold host_logger, WithSubject, GetLogger. wsimpl.
    destruct (Config.Logger c) as [i|].
    - apply lookup_lt_is_Some_2 in Hok as [old Hold].
      exists (mkLogger (start old) host (debugLevel old)). split.
      + split; [reflexivity|]. exists old. auto.
      + repeat wp_step. auto.
    - exists (mkLogger clk host 2). split; [repeat split|].
      repeat wp_step. auto. }
  destruct Hl as (l & Hhl & Hwp).
  eapply wp_mono; [exact Hwp|]. clear Hwp. intros i w1 [-> ->].
  apply wp_bind, wp_modify. wsimpl.
  apply wp_bind. eapply wp_mono.
  { eapply dial_spec with (i := List.length hp); wsimpl;
      [reflexivity | apply lookup_snoc]. }
  intros res w2 [-> (Hh & Hc & Hk & Hs & Hf & Ht)]. wsimpl.
  apply wp_bind, wp_get. rewrite Hc. wsimpl.
  destruct (dial_status r) as [err|] eqn:Hd; wsimpl.
  - destruct (Config.StatusHandler c) as [h|] eqn:Hsh.
    + apply wp_bind. eapply wp_mono; [apply call_status_spec|].
      intros [] w3 [Eh Ec Ek Et Es Ef]. apply wp_ret.
      split; [reflexivity|].
      split; unfold Dial_calls, Dial_failed; wsimpl; rewrite ?Hd, ?Hsh.
      * chain.
      * exists l. split; [chain | assumption].
      * chain.
      * change [(h, host, Some err)] with ([] ++ [(h, host, Some err)]).
        eapply trace_ext_trans; eassumption.
      * rewrite Es, Hs. destruct h; apply app_nil_r.
      * rewrite Ef, Hf. reflexivity.
    + apply wp_ret. split; [reflexivity|].
      split; unfold Dial_calls, Dial_failed; wsimpl; rewrite ?Hd, ?Hsh;
        try assumption.
      * exists l. split; assumption.
      * rewrite Hf. symmetry. apply app_nil_r.
  - apply wp_ret. split; [reflexivity|].
    split; unfold Dial_calls, Dial_failed; wsimpl; rewrite ?Hd;
      try assumption.
    + exists l. split; assumption.
    + rewrite Hf. symmetry. apply app_nil_r.
Qed.

Lemma Client_Run_spec c cmd w i lg :
  Client.logger c = Some i ->
  heap w !! i = Some lg ->
  wp (Client.Run (Some c) cmd)
     (fun status w' =>
        status = session_status (Client.handleStdout c) (Client.handleStderr c)
                   (Client.sessionTimeout c) (Client.client c) /\
        match Client.handleStatus c with
        | Some h => effects w w' [(h, Client.host c, status)]
                      (collated_ok h (Client.host c) status)
                      (collated_failed h (Client.host c) status)
        | None => quiet w w'
        end) w.
Proof.
  intros Hlog Hlg. unfold Client.Run. apply wp_bind.
  eapply wp_mono; [eapply Client_run_spec; eassumption|].
  intros status w1 [-> Hq]. wsimpl.
  destruct (Client.handleStatus c) as [h|].
  - apply wp_bind. eapply wp_mono; [apply call_status_spec|].
    intros [] w2 He. apply wp_ret. split; [reflexivity|].
    eapply quiet_then_effects; eassumption.
  - apply wp_ret. auto.
Qed.

Lemma Client_Close_spec c w :
  wp (Client.Close (Some c)) (fun _ w' => quiet w w') w.
Proof.
  unfold Client.Close. destruct w. repeat wp_step.
  repeat (split; [reflexivity|]). trace_done.
Qed.

Lemma dial_status_pipeline c r err :
  dial_status r = Some err -> pipeline_status c r = Some err.
Proof. unfold pipeline_status. now intros ->. Qed.

(** With a status handler configured, [Run] returns the terminal status of
    the pipeline and has called the handler once, with that status. *)
Lemma Run_spec host cmd r w h :
  logger_ok w ->
  Config.StatusHandler (cfg w) = Some h ->
  wp (Run host cmd r)
     (fun status w' =>
        status = pipeline_status (cfg w) r /\ Run_post h host status w w') w.
Proof.
  intros Hok Hh. unfold Run. apply wp_bind.
  eapply wp_mono; [apply Dial_spec, Hok|].
  intros res w1 [-> [Dc (l & Dh & Dl) Dk Dt Ds Df]].
  unfold Dial_result, Dial_calls, Dial_failed in *. rewrite Hh in *.
  unfold pipeline_status.
  destruct (dial_status r) as [err|]; wsimpl.
  - apply wp_ret. split; [reflexivity|]. split; try assumption.
    + exists l. auto.
    + rewrite Ds. symmetry. destruct h; apply app_nil_r.
  - apply wp_defer. eapply wp_mono.
    { eapply Client_Run_spec with (i := List.length (heap w)); wsimpl;
        [reflexivity | rewrite Dh; apply lookup_snoc]. }
    wsimpl. rewrite Hh. intros status w2 [-> He].
    apply wp_bind. eapply wp_mono; [apply Client_Close_spec|].
    intros ? w3 Hq. apply wp_ret. split; [reflexivity|].
    pose proof (effects_then_quiet _ _ _ _ _ _ He Hq) as [Eh Ec Ek Et Es Ef].
    split.
    + chain.
    + exists l. split; [chain | assumption].
    + chain.
    + eapply (trace_ext_trans _ _ _ []); eassumption.
    + rewrite Es, Ds. reflexivity.
    + rewrite Ef, Df. now rewrite app_nil_r.
Qed.

(** Without a status handler, [Dial] drops the error of a failed [dial] and
    [Run] goes on with the nil [*Client]. *)
Lemma Run_panics host cmd r w err :
  logger_ok w ->
  Config.StatusHandler (cfg w) = None ->
  dial_status r = Some err ->
  exists w', Run host cmd r w = (Panic nil_deref, w').
Proof.
  intros Hok Hh Hd.
  destruct (wp_run _ _ _ (Dial_spec host r w Hok)) as (res & w1 & HD & -> & _).
  unfold Dial_result in HD. rewrite Hd, Hh in HD.
  unfold Run, mbind, M_bind, bind. rewrite HD. cbn.
  unfold defer, Client.Run, Client.run, Client.Close, mbind, M_bind, bind, panic.
  cbn. eauto.
Qed.

(** ** [RunOn]: lists of goroutines *)

Lemma insert_split {A} (l : list A) i x y :
  l !! i = Some x ->
  exists l1 l2, l = l1 ++ x :: l2 /\ <[i:=y]> l = l1 ++ y :: l2 /\
                List.length l1 = i.
Proof.
  intros H. exists (take i l), (drop (S i) l).
  pose proof (lookup_lt_Some _ _ _ H) as Hi. split; [|split].
  - symmetry. now apply take_drop_middle.
  - now apply insert_take_drop.
  - rewrite length_take. lia.
Qed.

Lemma filter_length_insert {A} (p : A -> bool) (l : list A) i x y :
  l !! i = Some x ->
  (List.length (List.filter p (<[i:=y]> l)) + (if p x then 1 else 0) =
   List.length (List.filter p l) + (if p y then 1 else 0))%nat.
Proof.
  intros H. destruct (insert_split l i x y H) as (l1 & l2 & -> & -> & _).
  rewrite !List.filter_app, !length_app. cbn.
  destruct (p x), (p y); cbn; lia.
Qed.

Lemma filter_length_snoc {A} (p : A -> bool) (l : list A) x :
  List.length (List.filter p (l ++ [x])) =
  (List.length (List.filter p l) + (if p x then 1 else 0))%nat.
Proof.
  rewrite List.filter_app, length_app. cbn. destruct (p x); reflexivity.
Qed.

Lemma filter_length_pos {A} (p : A -> bool) (l : list A) :
  (0 < List.length (List.filter p l))%nat ->
  exists i x, l !! i = Some x /\ p x = true.
Proof.
  induction l as [|a l IH]; cbn; [lia|].
  destruct (p a) eqn:Ha.
  - intros _. exists 0%nat, a. auto.
  - intros H. destruct (IH H) as (i & x & Hi & Hx). exists (S i), x. auto.
Qed.

Lemma filter_length_le {A} (p q : A -> bool) (l : list A) :
  (forall x, p x = true -> q x = true) ->
  (List.length (List.filter p l) <= List.length (List.filter q l))%nat.
Proof.
  intros Hpq. induction l as [|a l IH]; cbn; [lia|].
  destruct (p a) eqn:Ha.
  - rewrite (Hpq _ Ha). cbn. lia.
  - destruct (q a); cbn; lia.
Qed.

Lemma omap_insert_new {A B} (f : A -> option B) (l : list A) i x y b :
  l !! i = Some x -> f x = None -> f y = Some b ->
  omap f (<[i:=y]> l) ≡ₚ omap f l ++ [b].
Proof.
  intros H Hx Hy. destruct (insert_split l i x y H) as (l1 & l2 & -> & -> & _).
  rewrite !omap_app. cbn. rewrite Hx, Hy.
  rewrite <- app_assoc. apply Permutation_app_head.
  apply Permutation_cons_append.
Qed.

Lemma omap_insert_same {A B} (f : A -> option B) (l : list A) i x y :
  l !! i = Some x -> f y = f x -> omap f (<[i:=y]> l) = omap f l.
Proof.
  intros H Hy. destruct (insert_split l i x y H) as (l1 & l2 & -> & -> & _).
  rewrite !omap_app. cbn. now rewrite Hy.
Qed.

Lemma fmap_insert_same {A B} (f : A -> B) (l : list A) i x y :
  l !! i = Some x -> f y = f x -> f <$> <[i:=y]> l = f <$> l.
Proof.
  intros H Hy. destruct (insert_split l i x y H) as (l1 & l2 & -> & -> & _).
  rewrite !fmap_app. cbn. now rewrite Hy.
Qed.

Lemma list_sum_insert (f : goroutine -> nat) (l : list goroutine) i x y :
  l !! i = Some x ->
  (list_sum (f <$> <[i:=y]> l) + f x = list_sum (f <$> l) + f y)%nat.
Proof.
  intros H. destruct (insert_split l i x y H) as (l1 & l2 & -> & -> & _).
  rewrite !fmap_app, !list_sum_app. cbn. lia.
Qed.

Lemma omap_snoc_None {A B} (f : A -> option B) (l : list A) x :
  f x = None -> omap f (l ++ [x]) = omap f l.
Proof. intros H. rewrite omap_app. cbn. rewrite H. apply app_nil_r. Qed.

(** ** [RunOn]: the counters *)

Section RunOn_counted.
Variable hosts : list string.
Variable cmd : string.
Variable net : nat -> remote.
Variable C : Z.

Lemma counted_enter w : counted hosts net C (RunOn_enter C w).
Proof.
  split; cbn; try reflexivity; try done.
  destruct (C <? 1) eqn:E; lia.
Qed.

Lemma counted_step s s' :
  counted hosts net C s -> step hosts cmd net s s' -> counted hosts net C s'.
Proof.
  intros [Hcap Hsem Hwg Hle Hhosts Hnet Hpc Hret] Hstep.
  destruct Hstep as
    [s host Hc Hl Hh Hlt | s Hc Hl Hh | s i host r status w' Hc Hi HR
    | s i host r msg w' Hc Hi HR | s i host status Hc Hi
    | s i host status Hc Hi | s Hc Hl Hz].
  - split; cbn; try assumption; try congruence.
    + rewrite filter_length_snoc. cbn. lia.
    + rewrite filter_length_snoc. cbn. lia.
    + lia.
    + rewrite fmap_app, length_app. cbn.
      rewrite Nat.add_1_r, (take_S_r _ _ _ Hh). now f_equal.
    + intros i h r Hi. apply lookup_app_Some in Hi as [Hi|[Hge Hi]].
      * eauto.
      * apply list_lookup_singleton_Some in Hi as [Hi0 [= _ <-]].
        f_equal. lia.
  - split; cbn; try assumption; try congruence.
    intros _. apply lookup_ge_None in Hh.
    apply (f_equal List.length) in Hhosts.
    rewrite length_fmap, length_take in Hhosts. lia.
  - pose proof (filter_length_insert holds_permit _ _ _
                  (Deferred host status) Hi) as F1.
    pose proof (filter_length_insert in_waitgroup _ _ _
                  (Deferred host status) Hi) as F2.
    cbn in F1, F2.
    split; cbn; rewrite ?length_insert; try assumption; try lia.
    + now rewrite (fmap_insert_same _ _ _ _ _ Hi).
    + intros j h r' Hj. destruct (decide (i = j)) as [->|Hne].
      * rewrite list_lookup_insert_eq in Hj by eauto using lookup_lt_Some.
        discriminate.
      * rewrite list_lookup_insert_ne in Hj by assumption. eauto.
  - split; cbn; assumption.
  - pose proof (filter_length_insert holds_permit _ _ _
                  (Signalled host status) Hi) as F1.
    pose proof (filter_length_insert in_waitgroup _ _ _
                  (Signalled host status) Hi) as F2.
    cbn in F1, F2.
    split; cbn; rewrite ?length_insert; try assumption; try lia.
    + now rewrite (fmap_insert_same _ _ _ _ _ Hi).
    + intros j h r' Hj. destruct (decide (i = j)) as [->|Hne].
      * rewrite list_lookup_insert_eq in Hj by eauto using lookup_lt_Some.
        discriminate.
      * rewrite list_lookup_insert_ne in Hj by assumption. eauto.
    + intros Hp. specialize (Hret Hp). lia.
  - pose proof (filter_length_insert holds_permit _ _ _
                  (Exited host status) Hi) as F1.
    pose proof (filter_length_insert in_waitgroup _ _ _
                  (Exited host status) Hi) as F2.
    cbn in F1, F2.
    split; cbn; rewrite ?length_insert; try assumption; try lia.
    + now rewrite (fmap_insert_same _ _ _ _ _ Hi).
    + intros j h r' Hj. destruct (decide (i = j)) as [->|Hne].
      * rewrite list_lookup_insert_eq in Hj by eauto using lookup_lt_Some.
        discriminate.
      * rewrite list_lookup_insert_ne in Hj by assumption. eauto.
  - split; cbn; try assumption; try congruence.
    intros _. apply Hpc. congruence.
Qed.

Lemma counted_reachable w s :
  reachable hosts cmd net C w s -> counted hosts net C s.
Proof.
  unfold reachable. revert s.
  apply (rtc_ind_r (counted hosts net C)); [apply counted_enter|].
  intros y z _ Hstep Hy. eapply counted_step; eassumption.
Qed.
End RunOn_counted.

(** ** [RunOn]: the status handler *)

Lemma settings_StatusHandler c c' :
  settings c = settings c' -> Config.StatusHandler c = Config.StatusHandler c'.
Proof.
  intros H. apply (f_equal Config.StatusHandler) in H. exact H.
Qed.

Lemma settings_set_Logger l c : settings (Config.set_Logger l c) = settings c.
Proof. reflexivity. Qed.

Lemma pipeline_status_settings c c' r :
  settings c = settings c' -> pipeline_status c r = pipeline_status c' r.
Proof.
  intros H. unfold pipeline_status.
  pose proof (f_equal Config.StdoutHandler H) as H1.
  pose proof (f_equal Config.StderrHandler H) as H2.
  pose proof (f_equal Config.SessionTimeout H) as H3.
  cbn in H1, H2, H3. now rewrite H1, H2, H3.
Qed.

Lemma default_logger_spec w :
  let w' := snd (default_logger w) in
  logger_ok w -> 
  logger_ok w' /\ Config.Logger (cfg w') <> None /\
  settings (cfg w') = settings (cfg w) /\
  trace w' = trace w /\ succeeded w' = succeeded w /\ failed w' = failed w /\
  clock w' = clock w /\ exists ls, heap w' = heap w ++ ls.
Proof.
  destruct w as [hp c clk tr su fa].
  unfold logger_ok, default_logger, GetLogger, mbind, M_bind, bind, get,
    modify, alloc, ret. cbn.
  destruct (Config.Logger c) as [i|] eqn:E; cbn; intros Hok.
  - rewrite E. repeat split; try done. exists []. now rewrite app_nil_r.
  - repeat split; try done.
    + rewrite length_app. cbn. lia.
    + eauto.
Qed.

Section RunOn_collated.
Variable hosts : list string.
Variable cmd : string.
Variable net : nat -> remote.
Variable C : Z.
Variable w0 : world.
Variable h : StatusHandler.
Hypothesis Hh : Config.StatusHandler (cfg w0) = Some h.
Hypothesis Hok : logger_ok w0.

Lemma collated_enter : collated hosts net w0 h (RunOn_enter C w0).
Proof.
  destruct (default_logger_spec w0 Hok) as (L & _ & S & T & Su & Fa & _).
  split; cbn; try assumption; try reflexivity.
  - intros i g hr Hi. now rewrite lookup_nil in Hi.
  - exists []. split; [rewrite T; apply trace_ext_refl | reflexivity].
  - exists []. split; [now rewrite Su, app_nil_r | reflexivity].
  - exists []. split; [now rewrite Fa, app_nil_r | reflexivity].
Qed.

Lemma collated_step s s' :
  counted hosts net C s -> collated hosts net w0 h s ->
  step hosts cmd net s s' -> collated hosts net w0 h s'.
Proof.
  intros Hcnt [Hal Hlog Hset Hst (calls & Ht & Hp) (ok & Hs & Hpo)
                 (ko & Hf & Hpk)] Hstep.
  assert (Hh' : Config.StatusHandler (cfg (shared s)) = Some h).
  { rewrite <- Hh. now apply settings_StatusHandler. }
  unfold done_results in *.
  destruct Hstep as
    [s host Hc Hl Hhost Hlt | s Hc Hl Hhost | s i host r status w' Hc Hi HR
    | s i host r msg w' Hc Hi HR | s i host status Hc Hi
    | s i host status Hc Hi | s Hc Hl Hz].
  - split; cbn; try assumption; try reflexivity.
    + intros i g hr Hi Hg. apply lookup_app_Some in Hi as [Hi|[_ Hi]].
      * eauto.
      * apply list_lookup_singleton_Some in Hi as [_ <-]. discriminate.
    + exists calls. now rewrite omap_snoc_None.
    + exists ok. now rewrite omap_snoc_None.
    + exists ko. now rewrite omap_snoc_None.
  - split; cbn; eauto.
  - destruct (wp_run _ _ _ (Run_spec host cmd r (shared s) h Hlog Hh'))
      as (st & w'' & HR' & Est & [Pc (l & Ph & Pl) Pk Pt Ps Pf]).
    rewrite HR in HR'. injection HR' as <- <-.
    assert (Hperm : omap done_result (<[i:=Deferred host status]> (workers s))
                    ≡ₚ omap done_result (workers s) ++ [(host, status)]).
    { apply (omap_insert_new _ _ _ _ _ _ Hi); reflexivity. }
    split; cbn.
    + reflexivity.
    + unfold logger_ok. rewrite Pc, Ph. cbn. rewrite length_app. cbn. lia.
    + rewrite Pc. exact Hset.
    + intros j g hr Hj Hg. destruct (decide (i = j)) as [->|Hne].
      * rewrite list_lookup_insert_eq in Hj by eauto using lookup_lt_Some.
        injection Hj as <-. injection Hg as <-. cbn.
        rewrite Est, (cnt_net _ _ _ _ Hcnt _ _ _ Hi).
        now apply pipeline_status_settings.
      * rewrite list_lookup_insert_ne in Hj by assumption. eauto.
    + exists (calls ++ [(h, host, status)]). split.
      * eapply trace_ext_trans; eassumption.
      * rewrite Hperm, fmap_app. now apply Permutation_app.
    + exists (ok ++ collated_ok h host status). split.
      * rewrite Ps, Hs. now rewrite app_assoc.
      * rewrite Hperm, bind_app, bind_singleton. now apply Permutation_app.
    + exists (ko ++ collated_failed h host status). split.
      * rewrite Pf, Hf. now rewrite app_assoc.
      * rewrite Hperm, bind_app, bind_singleton. now apply Permutation_app.
  - destruct (wp_run _ _ _ (Run_spec host cmd r (shared s) h Hlog Hh'))
      as (st & w'' & HR' & _). rewrite HR in HR'. discriminate.
  - assert (E : omap done_result (<[i:=Signalled host status]> (workers s))
                = omap done_result (workers s)).
    { apply (omap_insert_same _ _ _ _ _ Hi). reflexivity. }
    split; cbn; try assumption; rewrite ?E; eauto.
    intros j g hr Hj Hg. destruct (decide (i = j)) as [->|Hne].
    + rewrite list_lookup_insert_eq in Hj by eauto using lookup_lt_Some.
      injection Hj as <-. eapply Hst; eauto.
    + rewrite list_lookup_insert_ne in Hj by assumption. eauto.
  - assert (E : omap done_result (<[i:=Exited host status]> (workers s))
                = omap done_result (workers s)).
    { apply (omap_insert_same _ _ _ _ _ Hi). reflexivity. }
    split; cbn; try assumption; rewrite ?E; eauto.
    intros j g hr Hj Hg. destruct (decide (i = j)) as [->|Hne].
    + rewrite list_lookup_insert_eq in Hj by eauto using lookup_lt_Some.
      injection Hj as <-. eapply Hst; eauto.
    + rewrite list_lookup_insert_ne in Hj by assumption. eauto.
  - split; cbn; eauto.
Qed.

Lemma collated_reachable s :
  reachable hosts cmd net C w0 s -> collated hosts net w0 h s.
Proof.
  intros H. cut (counted hosts net C s /\ collated hosts net w0 h s);
    [tauto|].
  revert s H. unfold reachable.
  apply (rtc_ind_r (fun s => counted hosts net C s /\ collated hosts net w0 h s)).
  - split; [apply counted_enter | apply collated_enter].
  - intros y z _ Hstep [Hc Hl]. split.
    + eapply counted_step; eassumption.
    + eapply collated_step; eassumption.
Qed.
End RunOn_collated.

(** ** [RunOn]: progress and termination *)

Section RunOn_progress.
Variable hosts : list string.
Variable cmd : string.
Variable net : nat -> remote.

Lemma steps_left_step s s' :
  step hosts cmd net s s' -> (steps_left hosts s' < steps_left hosts s)%nat.
Proof.
  unfold steps_left.
  destruct 1 as
    [s host Hc Hl Hhost Hlt | s Hc Hl Hhost | s i host r status w' Hc Hi HR
    | s i host r msg w' Hc Hi HR | s i host status Hc Hi
    | s i host status Hc Hi | s Hc Hl Hz];
    rewrite Hc; cbn [crashed workers pc]; rewrite ?Hl; cbn [pc_weight].
  - apply lookup_lt_Some in Hhost.
    rewrite fmap_app, list_sum_app, length_app. cbn. lia.
  - lia.
  - pose proof (list_sum_insert goroutine_weight _ _ _
                  (Deferred host status) Hi) as E.
    cbn in E. rewrite length_insert. lia.
  - lia.
  - pose proof (list_sum_insert goroutine_weight _ _ _
                  (Signalled host status) Hi) as E.
    cbn in E. rewrite length_insert. lia.
  - pose proof (list_sum_insert goroutine_weight _ _ _
                  (Exited host status) Hi) as E.
    cbn in E. rewrite length_insert. lia.
  - lia.
Qed.


(** A goroutine that has not exited can take a step. *)
Lemma goroutine_step s i g :
  crashed s = None -> workers s !! i = Some g -> holds_permit g = true ->
  exists s', step hosts cmd net s s'.
Proof.
  intros Hc Hi Hg. destruct g as [host r|host st|host st|host st];
    [| | |discriminate].
  - destruct (Run host cmd r (shared s)) as [[st|msg] w'] eqn:HR.
    + eexists. eapply step_run; eassumption.
    + eexists. eapply step_panic; eassumption.
  - eexists. eapply step_done; eassumption.
  - eexists. eapply step_recv; eassumption.
Qed.

(** [RunOn] is never stuck before it returns, unless a pipeline has
    panicked. *)
Lemma RunOn_progress C s :
  counted hosts net C s -> crashed s = None -> pc s <> Returned ->
  exists s', step hosts cmd net s s'.
Proof.
  intros [Hcap Hsem Hwg Hle Hhosts Hnet Hpc Hret] Hc Hp.
  destruct (pc s) eqn:Epc; [| |congruence].
  - destruct (hosts !! List.length (workers s)) as [host|] eqn:Eh.
    + destruct (Z_lt_dec (Z.of_nat (sem s)) (maxFlight s)) as [Hlt|Hge].
      * eexists. eapply step_dispatch; eassumption.
      * assert (Hpos : (0 < List.length
                          (List.filter holds_permit (workers s)))%nat).
        { rewrite <- Hsem. destruct (Z.ltb_spec C 1); lia. }
        destruct (filter_length_pos _ _ Hpos) as (i & g & Hi & Hg).
        eapply goroutine_step; eassumption.
    + eexists. eapply step_loop_end; eassumption.
  - destruct (Z.eq_dec (wg s) 0) as [Hz|Hnz].
    + eexists. eapply step_wait; eassumption.
    + assert (Hpos : (0 < List.length
                        (List.filter in_waitgroup (workers s)))%nat) by lia.
      destruct (filter_length_pos _ _ Hpos) as (i & g & Hi & Hg).
      eapply goroutine_step; try eassumption. now destruct g.
Qed.

(** With a status handler configured, [RunOn] returns. *)
Lemma RunOn_returns C w0 h s :
  Config.StatusHandler (cfg w0) = Some h -> logger_ok w0 ->
  reachable hosts cmd net C w0 s ->
  exists s', rtc (step hosts cmd net) s s' /\ pc s' = Returned.
Proof.
  intros Hh Hok. remember (steps_left hosts s) as n eqn:En.
  revert s En. induction (lt_wf n) as [n _ IH]. intros s -> Hs.
  assert (Hdec : pc s = Returned \/ pc s <> Returned)
    by (destruct (pc s); auto; right; discriminate).
  destruct Hdec as [Hp|Hp].
  - exists s. split; [reflexivity | assumption].
  - pose proof (counted_reachable _ _ _ _ _ _ Hs) as Hcnt.
    pose proof (collated_reachable _ _ _ _ _ _ Hh Hok _ Hs) as Hcol.
    destruct (RunOn_progress C s Hcnt (col_alive _ _ _ _ _ Hcol) Hp)
      as [s1 Hstep].
    destruct (IH _ (steps_left_step _ _ Hstep) s1 eq_refl) as (s' & Hr & Hp').
    + eapply rtc_r; eassumption.
    + exists s'. split; [|assumption]. eapply rtc_l; eassumption.
Qed.
End RunOn_progress.

(** ** [RunOn]: what holds when it returns *)

Lemma filter_length_0 {A} (p : A -> bool) (l : list A) i x :
  List.length (List.filter p l) = 0%nat -> l !! i = Some x -> p x = false.
Proof.
  revert i. induction l as [|a l IH]; intros i; [now rewrite lookup_nil|].
  cbn. destruct (p a) eqn:Ha; [discriminate|].
  destruct i as [|i]; cbn.
  - now intros _ [= <-].
  - eauto.
Qed.

Lemma omap_Forall2 {A B} (f : A -> option B) (l : list A) (k : list B) :
  Forall2 (fun a b => f a = Some b) l k -> omap f l = k.
Proof. induction 1 as [|a b l k Hab _ IH]; cbn; [|rewrite Hab, IH]; reflexivity. Qed.

Lemma collated_ok_omap (l : list (string * option error)) :
  l ≫= (fun hr => collated_ok printAndCollateStatus hr.1 hr.2) = omap ok_host l.
Proof.
  induction l as [|[host e] l IH]; [reflexivity|].
  rewrite bind_cons, IH. now destruct e.
Qed.

Lemma collated_failed_omap (l : list (string * option error)) :
  l ≫= (fun hr => collated_failed printAndCollateStatus hr.1 hr.2)
  = omap failed_host l.
Proof.
  induction l as [|[host e] l IH]; [reflexivity|].
  rewrite bind_cons, IH. now destruct e.
Qed.

Lemma ok_failed_partition (l : list (string * option error)) :
  omap ok_host l ++ omap failed_host l ≡ₚ l.*1.
Proof.
  induction l as [|[host [e|]] l IH]; cbn; [reflexivity| |];
    unfold ok_host, failed_host; cbn.
  - rewrite <- Permutation_middle. now constructor.
  - now constructor.
Qed.

Lemma results_hosts hosts net c : (results hosts net c).*1 = hosts.
Proof.
  unfold results. apply list_eq. intros i.
  rewrite list_lookup_fmap, list_lookup_imap.
  now destruct (hosts !! i).
Qed.

Section RunOn_returned.
Variable hosts : list string.
Variable cmd : string.
Variable net : nat -> remote.
Variable C : Z.
Variable w0 : world.
Variable h : StatusHandler.

Lemma returned_all_dispatched s :
  counted hosts net C s -> pc s = Returned ->
  goroutine_host <$> workers s = hosts /\
  forall i g, workers s !! i = Some g -> in_waitgroup g = false.
Proof.
  intros [Hcap Hsem Hwg Hle Hhosts Hnet Hpc Hret] Hp. split.
  - rewrite Hhosts, Hpc by congruence. apply firstn_all.
  - intros i g Hi. eapply filter_length_0; [|eassumption].
    specialize (Hret Hp). lia.
Qed.

Lemma done_results_returned s :
  counted hosts net C s -> collated hosts net w0 h s -> pc s = Returned ->
  done_results (workers s) = results hosts net (cfg w0).
Proof.
  intros Hcnt Hcol Hp.
  destruct (returned_all_dispatched s Hcnt Hp) as [Hhosts Hran].
  apply omap_Forall2, Forall2_same_length_lookup_2.
  - unfold results. rewrite length_imap, <- Hhosts, length_fmap. reflexivity.
  - intros i g [host st] Hi Hr.
    unfold results in Hr. rewrite list_lookup_imap, <- Hhosts in Hr.
    rewrite list_lookup_fmap, Hi in Hr. cbn in Hr. injection Hr as <- <-.
    pose proof (Hran _ _ Hi) as Hg.
    destruct g as [host r|host st|host st|host st]; try discriminate; cbn;
      f_equal; f_equal; exact (col_status _ _ _ _ _ Hcol i _ _ Hi eq_refl).
Qed.
End RunOn_returned.

(** The number of pipelines in flight never exceeds the ceiling, the hosts
    are dispatched in list order, and [RunOn] has returned only when a
    goroutine was started for every host and every [Run] has returned. *)
Lemma RunOn_bounded hosts cmd net C w s :
  reachable hosts cmd net C w s ->
  maxFlight s = Z.max 1 C /\
  Z.of_nat (active s) <= maxFlight s /\
  goroutine_host <$> workers s = take (List.length (workers s)) hosts /\
  (pc s = Returned ->
   goroutine_host <$> workers s = hosts /\
   forall i g, workers s !! i = Some g -> is_active g = false).
Proof.
  intros Hs. pose proof (counted_reachable _ _ _ _ _ _ Hs) as Hcnt.
  pose proof (returned_all_dispatched hosts net C s Hcnt) as Hret.
  destruct Hcnt as [Hcap Hsem Hwg Hle Hhosts Hnet _ _].
  repeat split.
  - rewrite Hcap. destruct (Z.ltb_spec C 1); lia.
  - assert ((active s <= sem s)%nat); [|lia].
    rewrite Hsem. apply filter_length_le. now intros [].
  - assumption.
  - now apply Hret.
  - intros i g Hi. destruct (Hret H) as [_ Hw].
    specialize (Hw _ _ Hi). now destruct g.
Qed.

(** ** The race of [Client.run] *)

Lemma select_timer_first d r : timer_first d r -> select d r = case_timeout.
Proof.
  unfold timer_first, select. destruct (exit r) as [[t st]|]; [|reflexivity].
  intros H. destruct (Z.ltb_spec t (Z.max 0 d)); [lia|].
  destruct (Z.ltb_spec (Z.max 0 d) t); [reflexivity | lia].
Qed.

Lemma select_exit_first d r status :
  exit_first d r status -> select d r = case_status status.
Proof.
  unfold select. intros (t & -> & H).
  destruct (Z.ltb_spec t (Z.max 0 d)); [reflexivity | lia].
Qed.

Lemma suffix_here {A} (s : list A) : s = [] ++ s.
Proof. reflexivity. Qed.

Lemma suffix_later {A} (e : A) (l p s : list A) :
  l = p ++ s -> e :: l = (e :: p) ++ s.
Proof. now intros ->. Qed.

Ltac find_suffix :=
  repeat first [ apply suffix_here | apply suffix_later ].

(** What a started session does: it arms the timer, and then follows the
    case [select] takes. *)
Lemma Client_run_started c cmd w i lg :
  Client.logger c = Some i ->
  heap w !! i = Some lg ->
  session_started c ->
  let d := timer_duration (Client.sessionTimeout c) in
  exists pre w',
    Client.run (Some c) cmd w =
      (Ret (match select d (Client.client c) with
            | case_timeout => Some SessionTimeoutError
            | case_status status => status
            end), w') /\
    trace w' = trace w ++ pre ++
      EvNewTimer d ::
      match select d (Client.client c) with
      | case_timeout =>
          [EvLog (subject lg) "command timed out"; EvSignal "QUIT";
           EvSessionClose; EvSessionClose]
      | case_status _ =>
          [EvLog (subject lg) "command exited"; EvTimerStop; EvSessionClose]
      end.
Proof.
  intros Hlog Hlg (Hs & Ho & He & Hst) d.
  assert (H : wp (Client.run (Some c) cmd)
                (fun status w' =>
                   status = match select d (Client.client c) with
                            | case_timeout => Some SessionTimeoutError
                            | case_status status => status
                            end /\
                   exists pre, trace w' = trace w ++ pre ++
                     EvNewTimer d ::
                     match select d (Client.client c) with
                     | case_timeout =>
                         [EvLog (subject lg) "command timed out";
                          EvSignal "QUIT"; EvSessionClose; EvSessionClose]
                     | case_status _ =>
                         [EvLog (subject lg) "command exited"; EvTimerStop;
                          EvSessionClose]
                     end) w).
  { subst d. unfold Client.run, Client.open_pipe, pipe_status, timer_duration in *.
    destruct w as [hp cf clk tr su fa]; wsimpl. rewrite Hlog, Hs, Hst.
    destruct (Client.handleStdout c), (Client.handleStderr c);
      rewrite ?Ho, ?He.
    all: repeat wp_step; (split; [reflexivity|]);
      rewrite <- !app_assoc; cbn [app]; eexists; f_equal; find_suffix. }
  apply wp_run in H as (status & w' & Hrun & -> & pre & Ht).
  exists pre, w'. split; assumption.
Qed.

(** ** What a pipeline may change in the world *)







Lemma framed_get_bind {B} (k : world -> M B) :
  (forall w, frame w (k w w).2) -> framed (get ≫= k).
Proof. intros Hk w. apply Hk. Qed.

















(** ** Addresses *)

Lemma index_colon_cons c rest :
  String.index 0 ":" (String c rest) = None <->
  Ascii.eqb c ":" = false /\ String.index 0 ":" rest = None.
Proof.
  change (String.index 0 ":" (String c rest)) with
    (if (if ascii_dec ":" c then String.prefix "" rest else false)
     then Some 0%nat
     else match String.index 0 ":" rest with
          | Some n => Some (S n)
          | None => None
          end).
  destruct (ascii_dec ":" c) as [<-|Hne].
  - replace (String.prefix "" rest) with true by now destruct rest.
    split; [discriminate | intros [? _]; discriminate].
  - assert (E : Ascii.eqb c ":" = false).
    { apply Ascii.eqb_neq. congruence. }
    rewrite E. destruct (String.index 0 ":" rest); split; try tauto;
      try discriminate. intros [_ ?]. discriminate.
Qed.

Lemma host_port_append h p :
  String.index 0 ":" h = None -> host_port (h +:+ ":" +:+ p) = Some (h, p).
Proof.
  induction h as [|c h IH]; [reflexivity|].
  intros H. apply index_colon_cons in H as [Hc Hh].
  change (host_port (String c h +:+ ":" +:+ p)) with
    (if Ascii.eqb c ":" then Some (EmptyString, h +:+ ":" +:+ p)
     else match host_port (h +:+ ":" +:+ p) with
          | Some (h0, p0) => Some (String c h0, p0)
          | None => None
          end).
  now rewrite Hc, (IH Hh).
Qed.

Lemma index_colon_append h p : String.index 0 ":" (h +:+ ":" +:+ p) <> None.
Proof.
  induction h as [|c h IH].
  { intros H. change ("" +:+ ":" +:+ p) with (String ":" p) in H.
    apply index_colon_cons in H as [H _]. discriminate. }
  intros H. change (String c h +:+ ":" +:+ p)
    with (String c (h +:+ ":" +:+ p)) in H.
  apply index_colon_cons in H as [_ H]. now apply IH.
Qed.

Lemma toAddr_default host :
  String.index 0 ":" host = None -> toAddr host = host +:+ ":22".
Proof. unfold toAddr. now intros ->. Qed.

Lemma toAddr_explicit h p : toAddr (h +:+ ":" +:+ p) = h +:+ ":" +:+ p.
Proof.
  unfold toAddr. pose proof (index_colon_append h p) as H.
  now destruct (String.index 0 ":" (h +:+ ":" +:+ p)).
Qed.


(** ** [printLines] and the scanner *)

Section Scanner.
Variable maxTokenSize : nat.
Variable end_err : option error.

Lemma scan_from_line l :
  forall line room rest,
    newline ∉ l -> (List.length l < room)%nat ->
    scan_from maxTokenSize room line (l ++ newline :: rest) end_err =
    (Text (line ++ l) :: (scan_from maxTokenSize maxTokenSize [] rest end_err).1,
     (scan_from maxTokenSize maxTokenSize [] rest end_err).2).
Proof.
  induction l as [|c l IH]; intros line room rest Hnl Hlen.
  - destruct room as [|room]; [cbn in Hlen; lia|]. cbn.
    destruct (scan_from maxTokenSize maxTokenSize [] rest end_err).
    now rewrite app_nil_r.
  - destruct room as [|room]; [cbn in Hlen; lia|].
    apply not_elem_of_cons in Hnl as [Hc Hl].
    change ((c :: l) ++ newline :: rest) with (c :: (l ++ newline :: rest)).
    cbn [scan_from].
    destruct (Ascii.eqb_spec c newline) as [->|_]; [contradiction|].
    rewrite (IH (line ++ [c]) room rest Hl) by (cbn in Hlen; lia).
    now rewrite <- app_assoc.
Qed.


Lemma scan_from_lines lines rest :
  Forall (fun l => (newline ∉ l) /\ (List.length l < maxTokenSize)%nat) lines ->
  scan_from maxTokenSize maxTokenSize []
    (concat ((fun l => l ++ [newline]) <$> lines) ++ rest) end_err =
  ((Text <$> lines) ++ (scan_from maxTokenSize maxTokenSize [] rest end_err).1,
   (scan_from maxTokenSize maxTokenSize [] rest end_err).2).
Proof.
  induction 1 as [|l lines [Hnl Hlen] _ IH]; cbn [fmap list_fmap concat].
  - cbn [app]. now destruct (scan_from maxTokenSize maxTokenSize [] rest end_err).
  - rewrite <- !app_assoc. cbn [app].
    rewrite (scan_from_line l [] maxTokenSize _ Hnl Hlen), IH. reflexivity.
Qed.
End Scanner.

Lemma print_each_spec host stream texts w :
  print_each host stream texts w =
  (Ret tt,
   set_trace
     (trace w ++
      concat ((fun text =>
                 [EvLock "stdoutMutex";
                  EvStdout (host +:+ ":" +:+ stream +:+ ":" +:+ text);
                  EvUnlock "stdoutMutex"]) <$> texts)) w).
Proof.
  revert w. induction texts as [|text texts IH]; intros w.
  - destruct w. cbn. unfold set_trace. cbn. now rewrite app_nil_r.
  - cbn [print_each]. unfold print_line, mbind, M_bind, bind, emit, modify.
    cbv beta iota. rewrite IH. destruct w. unfold set_trace. cbn.
    now rewrite <- !app_assoc.
Qed.

Lemma printLines_spec host stream r w :
  printLines host stream r w =
  (Ret tt,
   set_trace
     (trace w ++
      concat ((fun text =>
                 [EvLock "stdoutMutex";
                  EvStdout (host +:+ ":" +:+ stream +:+ ":" +:+ text);
                  EvUnlock "stdoutMutex"]) <$> (scan r).1) ++
      match (scan r).2 with
      | Some e => [EvStderr ("gossh.printLines(" +:+ host +:+ ", " +:+ stream
                               +:+ "): " +:+ Error e)]
      | None => []
      end) w).
Proof.
  unfold printLines. destruct (scan r) as [texts [e|]]; cbn [fst snd];
    unfold mbind, M_bind, bind; rewrite print_each_spec.
  - destruct w. unfold emit, modify, set_trace. cbn.
    now rewrite <- !app_assoc.
  - destruct w. unfold set_trace. cbn. now rewrite app_nil_r.
Qed.

(** ** Rewriting ranges *)





Section Ranges.
Variables sep sep' : list ascii.
Hypothesis sep_head : exists c t, sep = c :: t /\ is_digit c = false.








Definition Replace (s : list ascii) : list ascii :=
  replace_ranges (List.length s) sep sep' s.


Lemma Replace_skip c s :
  match_range sep (c :: s) = None -> Replace (c :: s) = c :: Replace s.
Proof.
  intros E. unfold Replace. cbn [List.length replace_ranges]. now rewrite E.
Qed.




Lemma has_range_false_Replace s : has_range sep s = false -> Replace s = s.
Proof.
  induction s as [|c s IH]; [reflexivity|]. cbn [has_range].
  destruct (match_range sep (c :: s)) eqn:E; [discriminate|].
  intros H. now rewrite (Replace_skip _ _ E), (IH H).
Qed.


End Ranges.

Lemma dash_head : exists c t, dash = c :: t /\ is_digit c = false.
Proof. now exists "-"%char, []. Qed.










(** * cmd/gossh/main.go *)

Lemma list_ascii_of_string_app s t :
  list_ascii_of_string (s +:+ t) =
  list_ascii_of_string s ++ list_ascii_of_string t.
Proof.
  induction s as [|c s IH]; [reflexivity|].
  change (String c s +:+ t) with (String c (s +:+ t)). cbn. now f_equal.
Qed.

Lemma list_ascii_nil s : list_ascii_of_string s = [] -> s = "".
Proof. now destruct s. Qed.

Lemma stderr_only_refl w : stderr_only w w.
Proof.
  repeat split. exists []. split; [now rewrite app_nil_r | constructor].
Qed.

Lemma stderr_only_trans w1 w2 w3 :
  stderr_only w1 w2 -> stderr_only w2 w3 -> stderr_only w1 w3.
Proof.
  intros (H1 & H2 & H3 & H4 & H5 & e1 & H6 & H7)
         (K1 & K2 & K3 & K4 & K5 & e2 & K6 & K7).
  repeat split; try congruence.
  exists (e1 ++ e2). split.
  - now rewrite K6, H6, app_assoc.
  - now apply Forall_app.
Qed.

Lemma stderr_only_emit w line :
  stderr_only w (set_trace (trace w ++ [EvStderr line]) w).
Proof.
  repeat split. exists [EvStderr line]. split; [reflexivity|].
  now repeat constructor.
Qed.

Lemma warns_ret {A} (a : A) : warns (mret a).
Proof. intros w. apply stderr_only_refl. Qed.

Lemma warns_bind {A B} (m : M A) (k : A -> M B) :
  warns m -> (forall a, warns (k a)) -> warns (m ≫= k).
Proof.
  intros Hm Hk w. unfold mbind, M_bind, bind. specialize (Hm w).
  destruct (m w) as [[a|p] w1]; [|exact Hm].
  eapply stderr_only_trans; [exact Hm | apply Hk].
Qed.

(** [print] writes one line that ends in a newline, or panics on the empty
    message. *)
Lemma print_spec prefix msg w :
  msg <> "" ->
  exists line,
    print prefix msg w =
    (Ret tt, set_trace (trace w ++ [EvStderr (prefix +:+ line)]) w) /\
    last_byte line = Some newline /\
    (last_byte msg = Some newline -> line = msg) /\
    (last_byte msg <> Some newline -> line = msg +:+ String newline "").
Proof.
  intros Hne. unfold print, last_byte.
  destruct (rev (list_ascii_of_string msg)) as [|c r] eqn:E.
  { apply (f_equal (@rev ascii)) in E. rewrite rev_involutive in E.
    cbn in E. now apply list_ascii_nil in E. }
  apply (f_equal (@rev ascii)) in E. rewrite rev_involutive in E. cbn in E.
  assert (L : last (list_ascii_of_string msg) = Some c)
    by (rewrite E; apply last_snoc).
  destruct (Ascii.eqb_spec c newline) as [->|Hc].
  - exists msg. repeat split; [assumption|]. intros H. now rewrite L in H.
  - exists (msg +:+ String newline ""). repeat split.
    + rewrite list_ascii_of_string_app. apply last_snoc.
    + intros H. rewrite L in H. congruence.
Qed.

Lemma print_empty prefix w :
  print prefix "" w = (Panic "runtime error: index out of range [-1]", w).
Proof. reflexivity. Qed.

Lemma warns_print prefix msg : warns (print prefix msg).
Proof.
  intros w. destruct msg as [|c msg].
  - apply stderr_only_refl.
  - destruct (print_spec prefix (String c msg) w) as (line & -> & _);
      [discriminate|]. apply stderr_only_emit.
Qed.

Lemma fatal_spec msg w :
  msg <> "" ->
  exists line,
    fatal msg w =
    (Ret (Exit 255),
     set_trace (trace w ++ [EvStderr ("fatal: " +:+ line)]) w).
Proof.
  intros H. destruct (print_spec "fatal: " msg w H) as (line & E & _).
  exists line. unfold fatal, mbind, M_bind, bind. now rewrite E.
Qed.

Lemma fatal_result msg w o w' :
  fatal msg w = (o, w') ->
  stderr_only w w' /\
  match o with
  | Ret r =>
      r = Exit 255 /\ msg <> "" /\
      exists line, last (trace w') = Some (EvStderr ("fatal: " +:+ line))
  | Panic _ => msg = ""
  end.
Proof.
  intros H. destruct msg as [|c msg].
  - cbv in H. injection H as <- <-. split; [apply stderr_only_refl|].
    reflexivity.
  - destruct (fatal_spec (String c msg) w) as (line & E); [discriminate|].
    rewrite E in H. injection H as <- <-. split; [apply stderr_only_emit|].
    repeat split; [discriminate|]. exists line. cbn. apply last_snoc.
Qed.

Section Main_lemmas.
Variable float64 : Type.
Variable millis : float64 -> Z.
Variable Query : string -> gset string + error.
Variable Compress : gset string -> string.
Variable Fields : string -> list string.
Variable os : process.

Lemma warns_identityFiles files :
  forall methods, warns (identityFiles os methods files).
Proof.
  induction files as [|k files IH]; intros methods; cbn [identityFiles].
  - apply warns_ret.
  - destruct (IdentityFile os k); [apply IH|].
    apply warns_bind; [apply warns_print | intros; apply IH].
Qed.

Lemma warns_agentKeys methods authSock :
  warns (agentKeys os methods authSock).
Proof.
  unfold agentKeys. destruct (exists_ os authSock); [|apply warns_ret].
  destruct (AgentKeys os authSock); [apply warns_ret|].
  apply warns_bind; [apply warns_print | intros; apply warns_ret].
Qed.

(** With messages in its errors, [identityFiles] returns, with the methods
    of the readable files appended in order and one warning for each of the
    others. *)
Lemma identityFiles_spec files :
  (forall k e, k ∈ files -> IdentityFile os k = inr e -> Error e <> "") ->
  forall methods w,
  exists evs,
    identityFiles os methods files w =
    (Ret (methods ++ omap (readable os) files),
     set_trace (trace w ++ evs) w) /\
    Forall (fun e => is_stderr e = true) evs /\
    List.length evs = List.length (List.filter (unreadable os) files).
Proof.
  induction files as [|k files IH]; intros Hm methods w.
  - exists []. cbn. rewrite !app_nil_r. now destruct w.
  - cbn [identityFiles omap list_omap List.filter].
    assert (Hr : readable os k = match IdentityFile os k with
                                 | inl m => Some m | inr _ => None end)
      by reflexivity.
    assert (Hu : unreadable os k = match IdentityFile os k with
                                   | inl _ => false | inr _ => true end)
      by reflexivity.
    destruct (IdentityFile os k) as [m|e] eqn:E; rewrite Hr, Hu.
    + destruct (IH (fun k e H => Hm k e (proj2 (elem_of_cons _ _ _) (or_intror H)))
                  (methods ++ [m]) w) as (evs & -> & Hf & Hl).
      exists evs. now rewrite <- app_assoc.
    + unfold warn, mbind, M_bind, bind.
      destruct (print_spec "warn: " (Error e) w) as (line & -> & _).
      { apply (Hm k); [apply elem_of_cons; now left | assumption]. }
      destruct (IH (fun k e H => Hm k e (proj2 (elem_of_cons _ _ _) (or_intror H)))
                  methods (set_trace (trace w ++ [EvStderr ("warn: " +:+ line)]) w))
        as (evs & -> & Hf & Hl).
      exists (EvStderr ("warn: " +:+ line) :: evs). cbn.
      rewrite <- app_assoc. repeat split; [now constructor | now rewrite Hl].
Qed.

Lemma agentKeys_returns methods authSock w :
  (forall e, AgentKeys os authSock = inr e -> Error e <> "") ->
  exists ms w', agentKeys os methods authSock w = (Ret ms, w').
Proof.
  intros Hm. unfold agentKeys. destruct (exists_ os authSock); [|now eexists _, _].
  destruct (AgentKeys os authSock) as [m|e]; [now eexists _, _|].
  unfold warn, mbind, M_bind, bind.
  destruct (print_spec "warn: " (Error e) w) as (line & -> & _);
    [now apply Hm|]. now eexists _, _.
Qed.

Lemma identityFiles_result files :
  forall methods w ms w',
    identityFiles os methods files w = (Ret ms, w') ->
    ms = methods ++ omap (readable os) files.
Proof.
  induction files as [|k files IH]; intros methods w ms w'.
  - cbn. intros [= <- _]. now rewrite app_nil_r.
  - cbn [identityFiles omap list_omap].
    assert (Hr : readable os k = match IdentityFile os k with
                                 | inl m => Some m | inr _ => None end)
      by reflexivity.
    destruct (IdentityFile os k) as [m|e]; rewrite Hr.
    + intros H. apply IH in H. now rewrite <- app_assoc in H.
    + unfold mbind, M_bind, bind.
      destruct (warn (Error e) w) as [[[]|p] w1]; [apply IH | discriminate].
Qed.

Lemma agentKeys_result methods authSock w ms w' :
  agentKeys os methods authSock w = (Ret ms, w') ->
  ms = methods ++ agent_method os authSock.
Proof.
  unfold agentKeys, agent_method. destruct (exists_ os authSock).
  - destruct (AgentKeys os authSock) as [m|e].
    + now intros [= <- _].
    + unfold mbind, M_bind, bind.
      destruct (warn (Error e) w) as [[[]|p] w1]; [|discriminate].
      intros [= <- _]. now rewrite app_nil_r.
  - intros [= <- _]. now rewrite app_nil_r.
Qed.

Lemma main_configure_result f hosts w o w' :
  main_configure float64 millis os f hosts w = (o, w') ->
  match o with
  | Ret (CallRunOn hs cmd mf) =>
      hosts = inl hs /\ cmd = String.concat " " (flags.Args f) /\
      mf = flags.maxFlight f /\
      exists w1 methods,
        stderr_only w w1 /\ methods = credentials os f /\ methods <> [] /\
        w' = configured millis f methods w1
  | Ret (Exit c) =>
      c = 255 /\ stderr_only w w' /\
      exists line, last (trace w') = Some (EvStderr ("fatal: " +:+ line))
  | Panic _ => stderr_only w w'
  end.
Proof.
  unfold main_configure. destruct hosts as [hs|err].
  2:{ intros H. apply fatal_result in H as (Hs & H).
      destruct o as [r|p]; [|assumption].
      destruct H as (-> & _ & Hl). auto. }
  unfold mbind at 1, M_bind at 1, bind at 1.
  set (m1 := if negb (flags.identities f =? "")%string
             then identityFiles os [] [flags.identities f] else mret []).
  assert (W1 : warns m1).
  { subst m1. destruct (negb _);
      [apply warns_identityFiles | apply warns_ret]. }
  specialize (W1 w). destruct (m1 w) as [[ms1|p1] w1] eqn:E1; cbn [snd] in W1.
  2:{ intros [= <- <-]. exact W1. }
  unfold mbind at 1, M_bind at 1, bind at 1.
  set (m2 := if flags.useAgent f then agentKeys os ms1 (SSH_AUTH_SOCK os)
             else mret ms1).
  assert (W2 : warns m2).
  { subst m2. destruct (flags.useAgent f);
      [apply warns_agentKeys | apply warns_ret]. }
  specialize (W2 w1). destruct (m2 w1) as [[ms2|p2] w2] eqn:E2; cbn [snd] in W2.
  2:{ intros [= <- <-]. eapply stderr_only_trans; eassumption. }
  pose proof (stderr_only_trans _ _ _ W1 W2) as W.
  assert (C : ms2 = credentials os f).
  { unfold credentials. subst m1 m2.
    assert (C1 : ms1 = if negb (flags.identities f =? "")%string
                       then omap (readable os) [flags.identities f] else []).
    { destruct (negb _); [|now injection E1 as <- _].
      now apply identityFiles_result in E1. }
    rewrite <- C1. destruct (flags.useAgent f).
    - now apply agentKeys_result in E2.
    - injection E2 as <- _. now rewrite app_nil_r. }
  destruct ms2 as [|m ms2].
  - intros H. apply fatal_result in H as (Hs & H).
    pose proof (stderr_only_trans _ _ _ W Hs) as W'.
    destruct o as [r|p]; [|assumption].
    destruct H as (-> & _ & Hl). auto.
  - intros H. cbv [mbind M_bind bind GetLogger get alloc modify mret M_ret ret]
      in H. injection H as <- <-.
    do 3 (split; [reflexivity|]). exists w2, (m :: ms2).
    split; [exact W|]. split; [exact C|]. split; [discriminate | reflexivity].
Qed.

(** With messages in the errors, [main_configure] does not panic. *)
Lemma main_configure_returns f hosts w :
  (forall e, hosts = inr e -> Error e <> "") ->
  (forall k e, IdentityFile os k = inr e -> Error e <> "") ->
  (forall a e, AgentKeys os a = inr e -> Error e <> "") ->
  exists r w', main_configure float64 millis os f hosts w = (Ret r, w').
Proof.
  intros Hh Hi Ha. unfold main_configure. destruct hosts as [hs|err].
  2:{ destruct (fatal_spec (Error err) w) as (line & ->); [now apply Hh|].
      now eexists _, _. }
  unfold mbind at 1, M_bind at 1, bind at 1.
  set (m1 := if negb (flags.identities f =? "")%string
             then identityFiles os [] [flags.identities f] else mret []).
  assert (R1 : exists ms w1, m1 w = (Ret ms, w1)).
  { subst m1. destruct (negb _); [|now eexists _, _].
    destruct (identityFiles_spec [flags.identities f]
                (fun k e _ => Hi k e) [] w) as (evs & -> & _).
    now eexists _, _. }
  destruct R1 as (ms1 & w1 & ->).
  unfold mbind at 1, M_bind at 1, bind at 1.
  set (m2 := if flags.useAgent f then agentKeys os ms1 (SSH_AUTH_SOCK os)
             else mret ms1).
  assert (R2 : exists ms w2, m2 w1 = (Ret ms, w2)).
  { subst m2. destruct (flags.useAgent f); [|now eexists _, _].
    apply agentKeys_returns. apply Ha. }
  destruct R2 as (ms2 & w2 & ->).
  destruct ms2 as [|m ms2].
  - destruct (fatal_spec "no authentication methods remain" w2)
      as (line & ->); [discriminate|]. now eexists _, _.
  - now eexists _, _.
Qed.

Lemma targets_error rangeExpr hostsFile e :
  with_messages Query os ->
  targets Query Fields os rangeExpr hostsFile (inr e) -> Error e <> "".
Proof.
  intros [HQ HR HS _ _]. unfold targets, readFileOrStdin.
  destruct (negb (rangeExpr =? "")%string).
  { unfold expand. destruct (Query _) as [res|e'] eqn:E.
    - intros (hosts & H & _). discriminate H.
    - intros [= <-]. eapply HQ, E. }
  destruct (negb (hostsFile =? "")%string).
  - destruct (hostsFile =? "-")%string.
    + destruct (Stdin os) as [d|e'] eqn:E; [discriminate|].
      intros [= ->]. now apply HS.
    + destruct (ReadFile os hostsFile) as [d|e'] eqn:E; [discriminate|].
      intros [= ->]. eapply HR, E.
  - intros [= ->]. discriminate.
Qed.


Lemma targets_inl_inr rangeExpr hostsFile hosts e :
  targets Query Fields os rangeExpr hostsFile (inl hosts) ->
  targets Query Fields os rangeExpr hostsFile (inr e) -> False.
Proof.
  unfold targets. destruct (negb (rangeExpr =? "")%string).
  { unfold expand. destruct (Query _) as [res|e'].
    - intros _ (hs & H & _). discriminate H.
    - discriminate. }
  destruct (negb (hostsFile =? "")%string); [|discriminate].
  destruct (readFileOrStdin os hostsFile); discriminate.
Qed.

(** Without credentials [main_configure] ends in [fatal]. *)
Lemma main_configure_no_credentials f hs w o w' :
  credentials os f = [] ->
  main_configure float64 millis os f (inl hs) w = (o, w') ->
  match o with
  | Ret r =>
      r = Exit 255 /\
      last (trace w') =
      Some (EvStderr ("fatal: no authentication methods remain"
                      +:+ String newline ""))
  | Panic _ => True
  end.
Proof.
  intros Hc. unfold main_configure.
  unfold mbind at 1, M_bind at 1, bind at 1.
  set (m1 := if negb (flags.identities f =? "")%string
             then identityFiles os [] [flags.identities f] else mret []).
  destruct (m1 w) as [[ms1|p1] w1] eqn:E1; [|now intros [= <- _]].
  unfold mbind at 1, M_bind at 1, bind at 1.
  set (m2 := if flags.useAgent f then agentKeys os ms1 (SSH_AUTH_SOCK os)
             else mret ms1).
  destruct (m2 w1) as [[ms2|p2] w2] eqn:E2; [|now intros [= <- _]].
  assert (C : ms2 = credentials os f).
  { unfold credentials. subst m1 m2.
    assert (C1 : ms1 = if negb (flags.identities f =? "")%string
                       then omap (readable os) [flags.identities f] else []).
    { destruct (negb _); [|now injection E1 as <- _].
      now apply identityFiles_result in E1. }
    rewrite <- C1. destruct (flags.useAgent f).
    - now apply agentKeys_result in E2.
    - injection E2 as <- _. now rewrite app_nil_r. }
  rewrite Hc in C. subst ms2. intros [= <- <-]. split; [reflexivity|].
  cbn [trace set_trace]. apply last_snoc.
Qed.

End Main_lemmas.


(** * The claims *)

(** C1. For every host list and every run of [RunOn] with the status
    handler [printAndCollateStatus]: [RunOn] returns, and when it has
    returned the handler has been called exactly once per host, with the
    terminal status of that host's pipeline (nil exactly when the pipeline
    succeeded); the hosts added to [succeeded] are those whose pipeline
    ended with a nil status, the hosts added to [failed] are the others, and
    together they are the host list, entry for entry: every host is in
    exactly one of the two, once, and they have [N] elements. *)
Theorem RunOn_collates_every_host hosts cmd net C w :
  Config.StatusHandler (cfg w) = Some printAndCollateStatus ->
  logger_ok w ->
  (exists s, reachable hosts cmd net C w s /\ pc s = Returned) /\
  forall s, reachable hosts cmd net C w s -> pc s = Returned ->
    exists calls ok ko,
      trace_ext (trace w) (trace (shared s)) calls /\
      calls ≡ₚ as_call printAndCollateStatus <$> results hosts net (cfg w) /\
      succeeded (shared s) = succeeded w ++ ok /\
      failed (shared s) = failed w ++ ko /\
      ok ≡ₚ omap ok_host (results hosts net (cfg w)) /\
      ko ≡ₚ omap failed_host (results hosts net (cfg w)) /\
      ok ++ ko ≡ₚ hosts /\
      (List.length ok + List.length ko = List.length hosts)%nat /\
      (NoDup hosts ->
       forall host, host ∈ hosts ->
         (host ∈ ok /\ host ∉ ko) \/ (host ∈ ko /\ host ∉ ok)).
Proof.
  intros Hh Hok. split.
  - destruct (RunOn_returns hosts cmd net C w _ (RunOn_enter C w) Hh Hok)
      as (s & Hs & Hp); [apply rtc_refl|]. eauto.
  - intros s Hs Hp.
    pose proof (counted_reachable _ _ _ _ _ _ Hs) as Hcnt.
    pose proof (collated_reachable _ _ _ _ _ _ Hh Hok _ Hs) as Hcol.
    pose proof (done_results_returned _ _ _ _ _ _ Hcnt Hcol Hp) as Hres.
    destruct Hcol as [_ _ _ _ (calls & Ht & Hc) (ok & Hs1 & Hpo)
                        (ko & Hf1 & Hpk)].
    rewrite Hres in Hc, Hpo, Hpk.
    rewrite collated_ok_omap in Hpo. rewrite collated_failed_omap in Hpk.
    assert (Hperm : ok ++ ko ≡ₚ hosts).
    { rewrite Hpo, Hpk, ok_failed_partition. now rewrite results_hosts. }
    exists calls, ok, ko. repeat split; try assumption.
    + rewrite <- length_app. now apply Permutation_length.
    + intros Hnd host Hin.
      assert (Hnd' : NoDup (ok ++ ko)) by now rewrite Hperm.
      apply NoDup_app in Hnd' as (_ & Hdisj & _).
      rewrite <- Hperm in Hin. apply elem_of_app in Hin as [Hin|Hin].
      * left. split; [assumption | now apply Hdisj].
      * right. split; [assumption|]. intros Hin'. now apply (Hdisj host).
Qed.

Lemma RunOn_collates_every_host_witness :
  exists s, reachable ["h1"; "h2"] "uptime" (fun _ => remote_ok) 2
              sample_world s /\ pc s = Returned.
Proof.
  apply (RunOn_collates_every_host ["h1"; "h2"] "uptime" _ 2 sample_world).
  - reflexivity.
  - unfold logger_ok. cbn. lia.
Defined.

(** C7. For every ceiling below 1, [RunOn] starts with the ceiling 1: its
    runs are the runs with ceiling 1, and at most one pipeline is in
    flight. *)
Theorem RunOn_ceiling_coerced C w :
  C < 1 ->
  RunOn_enter C w = RunOn_enter 1 w /\
  forall hosts cmd net s,
    (reachable hosts cmd net C w s <-> reachable hosts cmd net 1 w s) /\
    (reachable hosts cmd net C w s -> maxFlight s = 1 /\ (active s <= 1)%nat).
Proof.
  intros HC.
  assert (E : RunOn_enter C w = RunOn_enter 1 w).
  { unfold RunOn_enter. destruct (Z.ltb_spec C 1); [reflexivity | lia]. }
  split; [exact E|]. intros hosts cmd net s. split.
  - unfold reachable. now rewrite E.
  - intros Hs. destruct (RunOn_bounded _ _ _ _ _ _ Hs) as (Hm & Ha & _).
    split; lia.
Qed.

Lemma RunOn_ceiling_coerced_witness :
  RunOn_enter 0 sample_world = RunOn_enter 1 sample_world.
Proof.
  apply (RunOn_ceiling_coerced 0 sample_world). lia.
Defined.

(** C2, at the input where it fails.  With no status handler configured and
    a host whose connection is refused, [Dial] returns a nil client and a nil
    error, [Run] dereferences the nil client and panics: the process dies
    with the second host never dispatched, and no step is left. *)
Example RunOn_without_handler_crashes :
  exists s,
    reachable ["h1"; "h2"] "uptime" (fun _ => remote_refused) 1
      world_without_handler s /\
    crashed s = Some nil_deref /\
    workers s = [Active "h1" remote_refused] /\
    pc s = Looping /\
    status_calls (trace (shared s)) = [] /\
    forall s', ~ step ["h1"; "h2"] "uptime" (fun _ => remote_refused) s s'.
Proof.
  eexists. split; [|split; [|split; [|split; [|split]]]].
  - unfold reachable. eapply rtc_l.
    { eapply (step_dispatch _ _ _ _ "h1"); cbn; [reflexivity..|lia]. }
    cbn. eapply rtc_l; [|apply rtc_refl].
    eapply (step_panic _ _ _ _ 0%nat "h1" remote_refused); cbn; reflexivity.
  - reflexivity.
  - reflexivity.
  - reflexivity.
  - reflexivity.
  - intros s' Hstep. inversion Hstep; subst; cbn in *; discriminate.
Qed.

(** C3. For every started session, [Client.run] arms a timer for the
    configured session timeout ([MaxInt64] nanoseconds when the configured
    timeout is zero) and races it against [sess.Wait].  If the timer fires
    first, the run signals the remote process, closes the session and
    returns a [SessionTimeoutError], whatever status the command would have
    exited with; a [SessionTimeoutError] is not an [ExitError] and is
    reported on a different status line.  If [sess.Wait] returns first, the
    timer is stopped and the run returns the status of [sess.Wait]. *)
Theorem run_races_timer_and_exit c cmd w i lg :
  Client.logger c = Some i ->
  heap w !! i = Some lg ->
  session_started c ->
  let r := Client.client c in
  let d := timer_duration (Client.sessionTimeout c) in
  (Client.sessionTimeout c = 0 -> d = MaxInt64) /\
  (Client.sessionTimeout c <> 0 -> d = Client.sessionTimeout c) /\
  (timer_first d r ->
   exists pre w',
     Client.run (Some c) cmd w = (Ret (Some SessionTimeoutError), w') /\
     trace w' = trace w ++ pre ++
       [EvNewTimer d; EvLog (subject lg) "command timed out"; EvSignal "QUIT";
        EvSessionClose; EvSessionClose]) /\
  (forall status, exit_first d r status ->
   exists pre w',
     Client.run (Some c) cmd w = (Ret status, w') /\
     trace w' = trace w ++ pre ++
       [EvNewTimer d; EvLog (subject lg) "command exited"; EvTimerStop;
        EvSessionClose]) /\
  (forall n, SessionTimeoutError <> ExitError n) /\
  (forall host n,
     status_line host (Some SessionTimeoutError) =
       host +:+ ":status:failure, error: session timeout" /\
     status_line host (Some (ExitError n)) =
       host +:+ ":status:failure, exit status: " +:+ Z_to_string n).
Proof.
  intros Hlog Hlg Hst r d.
  destruct (Client_run_started c cmd w i lg Hlog Hlg Hst)
    as (pre & w' & Hrun & Ht).
  fold d r in Hrun, Ht.
  split; [|split; [|split; [|split; [|split]]]].
  - intros Hz. unfold d, timer_duration. now rewrite Hz.
  - intros Hz. unfold d, timer_duration.
    destruct (Z.eqb_spec (Client.sessionTimeout c) 0); [contradiction|reflexivity].
  - intros Hf. rewrite (select_timer_first d r Hf) in Hrun, Ht. eauto.
  - intros status Hf. rewrite (select_exit_first d r status Hf) in Hrun, Ht.
    eauto.
  - discriminate.
  - intros host n. split; reflexivity.
Qed.

Lemma run_races_timer_and_exit_witness :
  exists pre w',
    Client.run (Some sample_client) "sleep 1" sample_world =
      (Ret (Some SessionTimeoutError), w') /\
    trace w' = trace sample_world ++ pre ++
      [EvNewTimer 3; EvLog "main" "command timed out"; EvSignal "QUIT";
       EvSessionClose; EvSessionClose].
Proof.
  refine (proj1 (proj2 (proj2
    (run_races_timer_and_exit sample_client "sleep 1" sample_world 0%nat
       (mkLogger 0 "main" 2) eq_refl eq_refl _))) _).
  - repeat split.
  - cbn. lia.
Defined.

(** C4, at the input where it fails.  With no status handler configured, a
    refused connection makes [Dial] return a nil client together with a nil
    error: the cause is dropped.  [dial] was called once. *)
Example Dial_without_handler_drops_error :
  exists w',
    Dial "h1" remote_refused world_without_handler = (Ret (None, None), w') /\
    trace w' = [EvLog "h1" "connecting";
                EvDialTimeout "tcp" "h1:22" 10000000000].
Proof. eexists. split; reflexivity. Qed.











(** C9. The value of the flag [-p] is never read: two command lines that
    differ in it only reach the call of [RunOn] with the same arguments in
    the same world, or exit alike, and the program has the same runs; a host
    without a colon is dialed on port 22 whatever the flag says. *)
Theorem port_flag_is_ignored float64 millis Query Compress Fields os net
  (f : flags.t float64) p1 p2 :
  (forall w result w',
     main_setup float64 millis Query Fields os (flags.with_port p1 f)
       w result w' <->
     main_setup float64 millis Query Fields os (flags.with_port p2 f)
       w result w') /\
  (forall w code final,
     main float64 millis Query Compress Fields os net (flags.with_port p1 f)
       w code final <->
     main float64 millis Query Compress Fields os net (flags.with_port p2 f)
       w code final) /\
  (forall host,
     String.index 0 ":" host = None ->
     host_port (toAddr host) = Some (host, "22")).
Proof.
  split; [|split].
  - intros w result w'. destruct f. reflexivity.
  - intros w code final. destruct f. reflexivity.
  - intros host H. rewrite (toAddr_default host H). now apply host_port_append.
Qed.

(** * More properties of the code *)

(** X1. With a status handler configured, [Run] does not panic, returns
    the terminal status of the pipeline, has called the handler exactly once,
    with that status, and has left the settings of the [Config] alone. *)
Theorem Run_reports_exactly_once host cmd r w h :
  logger_ok w ->
  Config.StatusHandler (cfg w) = Some h ->
  exists w',
    Run host cmd r w = (Ret (pipeline_status (cfg w) r), w') /\
    trace_ext (trace w) (trace w') [(h, host, pipeline_status (cfg w) r)] /\
    settings (cfg w') = settings (cfg w).
Proof.
  intros Hok Hh.
  destruct (wp_run _ _ _ (Run_spec host cmd r w h Hok Hh))
    as (st & w' & HR & -> & [Pc _ _ Pt _ _]).
  exists w'. split; [assumption|]. split; [assumption|]. now rewrite Pc.
Qed.

Lemma Run_reports_exactly_once_witness :
  exists w',
    Run "h1" "uptime" remote_refused sample_world =
      (Ret (Some (OtherError "connection refused")), w') /\
    trace_ext (trace sample_world) (trace w')
      [(printAndCollateStatus, "h1", Some (OtherError "connection refused"))] /\
    settings (cfg w') = settings (cfg sample_world).
Proof.
  apply (Run_reports_exactly_once "h1" "uptime" remote_refused sample_world
           printAndCollateStatus).
  - unfold logger_ok. cbn. lia.
  - reflexivity.
Defined.

(** X2. When the connection and the handshake succeed, [Dial] returns a
    client for the host that carries the session timeout and the handlers of
    the [Config] and the logger [Dial] has just allocated for the host, with
    a nil error and without calling the status handler. *)
Theorem Dial_success_builds_client host r w :
  logger_ok w ->
  dial_status r = None ->
  exists w' l,
    Dial host r w =
      (Ret (Some (Client.mk (Some (List.length (heap w))) r host
                    (Config.SessionTimeout (cfg w))
                    (Config.StdoutHandler (cfg w))
                    (Config.StderrHandler (cfg w))
                    (Config.StatusHandler (cfg w))), None), w') /\
    heap w' = heap w ++ [l] /\ subject l = host /\
    trace_ext (trace w) (trace w') [] /\
    succeeded w' = succeeded w /\ failed w' = failed w.
Proof.
  intros Hok Hd.
  destruct (wp_run _ _ _ (Dial_spec host r w Hok))
    as (res & w' & HD & -> & [Pc (l & Ph & Pl) _ Pt Ps Pf]).
  unfold Dial_result, Dial_calls, Dial_failed in *. rewrite Hd in *.
  exists w', l. repeat split; try assumption.
  - exact (proj1 Pl).
  - now rewrite Pf, app_nil_r.
Qed.

Lemma Dial_success_builds_client_witness :
  exists w' l,
    Dial "h1" remote_ok sample_world =
      (Ret (Some (Client.mk (Some 1%nat) remote_ok "h1" 0 (Some PrintStdout)
                    (Some PrintStderr) (Some printAndCollateStatus)), None),
       w') /\
    heap w' = heap sample_world ++ [l] /\ subject l = "h1" /\
    trace_ext (trace sample_world) (trace w') [] /\
    succeeded w' = succeeded sample_world /\ failed w' = failed sample_world.
Proof.
  apply (Dial_success_builds_client "h1" remote_ok sample_world).
  - unfold logger_ok. cbn. lia.
  - reflexivity.
Defined.

Ltac wp_known :=
  match goal with
  | H : ?x = Some _ |- wp (match ?x with _ => _ end) _ _ => rewrite H; wsimpl
  | H : ?x = None |- wp (match ?x with _ => _ end) _ _ => rewrite H; wsimpl
  end.

Ltac wp_go := repeat first [wp_known | wp_step].

Ltac events_done :=
  rewrite <- ?app_assoc; cbn [app]; eexists; split; [reflexivity|];
  try reflexivity.

(** X3. A host whose connection or handshake fails never reaches the
    session runner: with a status handler configured, [Run] returns the error
    of [dial], and neither opens a session nor closes a client. *)
Theorem failed_dial_skips_session host cmd r w h err :
  logger_ok w ->
  Config.StatusHandler (cfg w) = Some h ->
  dial_status r = Some err ->
  exists w' evs,
    Run host cmd r w = (Ret (Some err), w') /\
    trace w' = trace w ++ evs /\
    forallb (fun e => negb (is_session_event e || is_client_close e)) evs
    = true.
Proof.
  intros Hok Hh Hd.
  assert (H : wp (Run host cmd r)
                (fun st w' => st = Some err /\ exists evs,
                   trace w' = trace w ++ evs /\
                   forallb (fun e => negb (is_session_event e
                                           || is_client_close e)) evs = true)
                w).
  { unfold logger_ok, dial_status in *.
    destruct w as [hp c clk tr su fa]; wsimpl.
    unfold Run, Dial, dial, WithSubject, GetLogger, call_status,
      do_printAndCollateStatus, do_PrintStatus.
    do 3 wp_step.
    destruct (Config.Logger c) as [i|] eqn:Hlog.
    - apply lookup_lt_is_Some_2 in Hok as [old Hold].
      pose proof (lookup_snoc hp (mkLogger (start old) host (debugLevel old))).
      destruct (tcp r) as [e|] eqn:Et; [injection Hd as ->|];
        wp_go; (split; [reflexivity|]); events_done.
    - pose proof (lookup_snoc hp (mkLogger clk host 2)).
      destruct (tcp r) as [e|] eqn:Et; [injection Hd as ->|];
        wp_go; (split; [reflexivity|]); events_done. }
  apply wp_run in H as (st & w' & HR & -> & evs & Ht & Hev).
  exists w', evs. auto.
Qed.

Lemma failed_dial_skips_session_witness :
  exists w' evs,
    Run "h1" "uptime" remote_refused sample_world =
      (Ret (Some (OtherError "connection refused")), w') /\
    trace w' = trace sample_world ++ evs /\
    forallb (fun e => negb (is_session_event e || is_client_close e)) evs
    = true.
Proof.
  apply (failed_dial_skips_session "h1" "uptime" remote_refused sample_world
           printAndCollateStatus).
  - unfold logger_ok. cbn. lia.
  - reflexivity.
  - reflexivity.
Defined.

(** X4. [Client.run] closes the session it has opened on every path: when
    [NewSession] succeeds, the last call of the run is the close of the
    session, whatever happens in between; when [NewSession] fails, the run
    returns that error and there is nothing to close. *)
Theorem run_closes_its_session c cmd w i lg :
  Client.logger c = Some i ->
  heap w !! i = Some lg ->
  (session (Client.client c) = None ->
   exists status w' pre,
     Client.run (Some c) cmd w = (Ret status, w') /\
     trace w' = trace w ++ EvNewSession :: pre ++ [EvSessionClose]) /\
  (forall err,
     session (Client.client c) = Some err ->
     exists w',
       Client.run (Some c) cmd w = (Ret (Some err), w') /\
       trace w' = trace w ++ [EvNewSession]).
Proof.
  intros Hlog Hlg. split.
  - intros Hs.
    assert (H : wp (Client.run (Some c) cmd)
                  (fun _ w' => exists pre,
                     trace w' = trace w ++ EvNewSession :: pre
                                ++ [EvSessionClose]) w).
    { unfold Client.run, Client.open_pipe.
      destruct w as [hp cf clk tr su fa]; wsimpl. rewrite Hlog, Hs.
      wp_go; rewrite <- ?app_assoc; cbn [app]; eexists; do 2 f_equal;
        find_suffix. }
    apply wp_run in H as (status & w' & HR & pre & Ht). eauto.
  - intros err Hs.
    assert (H : wp (Client.run (Some c) cmd)
                  (fun status w' => status = Some err /\
                     trace w' = trace w ++ [EvNewSession]) w).
    { unfold Client.run. destruct w as [hp cf clk tr su fa]; wsimpl.
      rewrite Hs. wp_go. auto. }
    apply wp_run in H as (status & w' & HR & -> & Ht). eauto.
Qed.

Lemma run_closes_its_session_witness :
  exists status w' pre,
    Client.run (Some sample_client) "uptime" sample_world = (Ret status, w') /\
    trace w' = trace sample_world ++ EvNewSession :: pre ++ [EvSessionClose].
Proof.
  refine (proj1 (run_closes_its_session sample_client "uptime" sample_world
                   0%nat (mkLogger 0 "main" 2) eq_refl eq_refl) _).
  reflexivity.
Defined.

(** X5. The command is started only when the pipes of the configured
    handlers have been obtained: if the stdout pipe, or else the stderr pipe,
    of a configured handler fails, [Client.run] returns that error and has
    neither started a handler goroutine nor the command nor a timer. *)
Theorem failed_pipe_prevents_start c cmd w i lg err :
  Client.logger c = Some i ->
  heap w !! i = Some lg ->
  session (Client.client c) = None ->
  pipe_status (Client.handleStdout c) (outpipe (Client.client c)) = Some err \/
  (pipe_status (Client.handleStdout c) (outpipe (Client.client c)) = None /\
   pipe_status (Client.handleStderr c) (errpipe (Client.client c)) = Some err) ->
  exists w' evs,
    Client.run (Some c) cmd w = (Ret (Some err), w') /\
    trace w' = trace w ++ evs /\
    forallb (fun e => negb (is_command_event e)) evs = true.
Proof.
  intros Hlog Hlg Hs Hp.
  assert (H : wp (Client.run (Some c) cmd)
                (fun status w' => status = Some err /\ exists evs,
                   trace w' = trace w ++ evs /\
                   forallb (fun e => negb (is_command_event e)) evs = true)
                w).
  { unfold Client.run, Client.open_pipe, pipe_status in *.
    destruct w as [hp cf clk tr su fa]; wsimpl. rewrite Hlog, Hs.
    destruct (Client.handleStdout c), (Client.handleStderr c);
      destruct Hp as [Hp|[Hp1 Hp2]]; try discriminate;
      wp_go; (split; [reflexivity|]); events_done. }
  apply wp_run in H as (status & w' & HR & -> & evs & Ht & Hev). eauto.
Qed.

Lemma failed_pipe_prevents_start_witness :
  exists w' evs,
    Client.run (Some client_pipe_fails) "uptime" sample_world =
      (Ret (Some (OtherError "stdout already set")), w') /\
    trace w' = trace sample_world ++ evs /\
    forallb (fun e => negb (is_command_event e)) evs = true.
Proof.
  apply (failed_pipe_prevents_start client_pipe_fails "uptime" sample_world
           0%nat (mkLogger 0 "main" 2)); try reflexivity.
  left. reflexivity.
Defined.



(** X7. [RunOn] cannot deadlock: in every state of a run in which no
    pipeline has panicked and [RunOn] has not returned, some step is enabled
    (the dispatch of the next host, a step of a goroutine, or the return of
    [workers.Wait]). *)
Theorem RunOn_deadlock_free hosts cmd net C w s :
  reachable hosts cmd net C w s ->
  crashed s = None ->
  pc s <> Returned ->
  exists s', step hosts cmd net s s'.
Proof.
  intros Hs. apply (RunOn_progress hosts cmd net C).
  eapply counted_reachable, Hs.
Qed.

Lemma RunOn_deadlock_free_witness :
  exists s', step ["h1"; "h2"] "uptime" (fun _ => remote_ok)
               (RunOn_enter 1 sample_world) s'.
Proof.
  apply (RunOn_deadlock_free ["h1"; "h2"] "uptime" (fun _ => remote_ok) 1
           sample_world (RunOn_enter 1 sample_world) (rtc_refl _ _)).
  - reflexivity.
  - discriminate.
Defined.





(** X10. The address [toAddr] returns always carries a port separator, and
    [toAddr] adds a port at most once: applied to its own result it changes
    nothing. *)
Theorem toAddr_idempotent host :
  String.index 0 ":" (toAddr host) <> None /\
  toAddr (toAddr host) = toAddr host.
Proof.
  unfold toAddr at 1 3 4. destruct (String.index 0 ":" host) eqn:E.
  - split; [now rewrite E|]. unfold toAddr. now rewrite E.
  - split; [apply index_colon_append | apply toAddr_explicit].
Qed.

Lemma append_inj_l (h a b : string) : h +:+ a = h +:+ b -> a = b.
Proof.
  induction h as [|c h IH]; [exact (fun H => H)|].
  cbn. intros [= H]. exact (IH H).
Qed.

(** X11. [PrintStatus] never prints a failure as a success: the status
    line of a host is the success line exactly when the status is nil, and
    the line of a remote exit status is never the line of another error. *)
Theorem status_line_tells_failure host status :
  (status_line host status = status_line host None <-> status = None) /\
  (forall n e,
     status_line host (Some (ExitError n)) = status_line host (Some e) ->
     exists m, e = ExitError m).
Proof.
  split.
  - split; [|now intros ->].
    destruct status as [[n| |msg]|]; [| | |reflexivity];
      intros H; apply append_inj_l in H; discriminate H.
  - intros n [m| |msg] H; [eauto| |];
      apply append_inj_l in H; discriminate H.
Qed.

Section Scanner_end.
Variable maxTokenSize : nat.
Variable end_err : option error.

Lemma scan_from_end last :
  forall line room,
    newline ∉ last -> (List.length last < room)%nat ->
    scan_from maxTokenSize room line last end_err =
    (Text <$> unterminated (line ++ last), end_err).
Proof.
  induction last as [|c last IH]; intros line room Hnl Hlen.
  - destruct room as [|room]; [cbn in Hlen; lia|]. cbn [scan_from].
    rewrite app_nil_r. now destruct line.
  - destruct room as [|room]; [cbn in Hlen; lia|].
    apply not_elem_of_cons in Hnl as [Hc Hl]. cbn [scan_from].
    destruct (Ascii.eqb_spec c newline) as [->|_]; [contradiction|].
    rewrite (IH (line ++ [c]) room Hl) by (cbn in Hlen; lia).
    now rewrite <- app_assoc.
Qed.
End Scanner_end.

(** X12. When every line of a stream fits in the scanner's buffer with
    its newline (fewer than [MaxScanTokenSize] bytes), [printLines] forwards
    every line, in order, each as one write ["host:stream:text"] between a
    lock and an unlock of the output mutex, the last line also when no
    newline ends it; a read error that ends the stream is then written to the
    standard error, and nothing else of the world changes. *)
Theorem printLines_forwards_every_line host stream lines last end_err w :
  Forall (fun l => (newline ∉ l) /\ (List.length l < MaxScanTokenSize)%nat)
         lines ->
  newline ∉ last ->
  (List.length last < MaxScanTokenSize)%nat ->
  printLines host stream
    (mkReader (concat ((fun l => l ++ [newline]) <$> lines) ++ last) end_err) w
  = (Ret tt,
     set_trace
       (trace w ++
        concat (line_events host stream <$> (lines ++ unterminated last)) ++
        match end_err with
        | Some e =>
            [EvStderr ("gossh.printLines(" +:+ host +:+ ", " +:+ stream
                         +:+ "): " +:+ Error e)]
        | None => []
        end) w).
Proof.
  intros Hlines Hnl Hlen. rewrite printLines_spec. unfold scan.
  cbn [bytes read_err].
  rewrite (scan_from_lines _ _ lines last Hlines).
  rewrite (scan_from_end _ _ last [] _ Hnl Hlen).
  cbn [fst snd app]. rewrite <- fmap_app, <- list_fmap_compose. reflexivity.
Qed.

Lemma printLines_forwards_every_line_witness :
  printLines "h1" "stderr"
    (mkReader
       (concat ((fun l => l ++ [newline]) <$> [list_ascii_of_string "one"])
        ++ list_ascii_of_string "two")
       (Some (OtherError "connection lost"))) sample_world
  = (Ret tt,
     set_trace
       (trace sample_world ++
        concat (line_events "h1" "stderr" <$>
                  ([list_ascii_of_string "one"]
                   ++ unterminated (list_ascii_of_string "two"))) ++
        [EvStderr ("gossh.printLines(" +:+ "h1" +:+ ", " +:+ "stderr"
                     +:+ "): " +:+ Error (OtherError "connection lost"))])
       sample_world).
Proof.
  apply (printLines_forwards_every_line "h1" "stderr"
           [list_ascii_of_string "one"] (list_ascii_of_string "two")
           (Some (OtherError "connection lost"))).
  - constructor; [|constructor]. split.
    + intros Hin. simpl in Hin.
      repeat (apply elem_of_cons in Hin as [Hin|Hin]; [discriminate Hin|]).
      now apply elem_of_nil in Hin.
    + simpl List.length. unfold MaxScanTokenSize. lia.
  - intros Hin. simpl in Hin.
    repeat (apply elem_of_cons in Hin as [Hin|Hin]; [discriminate Hin|]).
    now apply elem_of_nil in Hin.
  - simpl List.length. unfold MaxScanTokenSize. lia.
Defined.

Lemma dropCR_snoc l c :
  dropCR (l ++ [c]) = if Ascii.eqb c carriage_return then l else l ++ [c].
Proof.
  induction l as [|a l IH]; [reflexivity|].
  change ((a :: l) ++ [c]) with (a :: (l ++ [c])).
  destruct l as [|b l].
  - cbn. now destruct (Ascii.eqb c carriage_return).
  - change (dropCR (a :: (b :: l) ++ [c])) with (a :: dropCR ((b :: l) ++ [c])).
    rewrite IH. now destruct (Ascii.eqb c carriage_return).
Qed.

(** X13. The text of a line is the line without one carriage return at
    its end: a line ending in [\r] is forwarded without it (one [\r] only),
    every other line as it is. *)
Theorem Text_drops_one_carriage_return l :
  Text (l ++ [carriage_return]) = string_of_list_ascii l /\
  (forall c, c <> carriage_return ->
             Text (l ++ [c]) = string_of_list_ascii (l ++ [c])) /\
  Text [] = "".
Proof.
  unfold Text. split; [|split].
  - now rewrite dropCR_snoc.
  - intros c Hc. rewrite dropCR_snoc.
    now destruct (Ascii.eqb_spec c carriage_return).
  - reflexivity.
Qed.

(** X14. A range expression without digits on both sides of a [-] goes
    to the range library unchanged by [expand]'s rewriting, as the host name
    [a-b.dom.tld] does; and an expression the library returns without
    digits on both sides of [..] is returned unchanged by [compress]'s. *)
Theorem rewriting_keeps_plain_names spec :
  (has_range dash (list_ascii_of_string spec) = false ->
   dash_to_dots spec = spec) /\
  (has_range dots (list_ascii_of_string spec) = false ->
   dots_to_dash spec = spec).
Proof.
  split; intros H; unfold dash_to_dots, dots_to_dash, ReplaceAllString.
  - change (string_of_list_ascii
              (Replace dash dots (list_ascii_of_string spec)) = spec).
    rewrite (has_range_false_Replace _ _ _ H).
    apply string_of_list_ascii_of_string.
  - change (string_of_list_ascii
              (Replace dots dash (list_ascii_of_string spec)) = spec).
    rewrite (has_range_false_Replace _ _ _ H).
    apply string_of_list_ascii_of_string.
Qed.

Lemma rewriting_keeps_plain_names_witness :
  dash_to_dots "a-b.dom.tld" = "a-b.dom.tld".
Proof.
  apply (rewriting_keeps_plain_names "a-b.dom.tld"). reflexivity.
Defined.




(** X17. [print] writes its message on standard error as one line: after
    the prefix comes the message, with a newline added exactly when the
    message does not end in one, so that what is written always ends in a
    newline; on the empty message it panics with an index out of range and
    writes nothing. *)
Theorem print_ends_every_line prefix msg w :
  (msg = "" -> exists p, print prefix msg w = (Panic p, w)) /\
  (msg <> "" ->
   exists line,
     print prefix msg w =
     (Ret tt, set_trace (trace w ++ [EvStderr (prefix +:+ line)]) w) /\
     last_byte line = Some newline /\
     (last_byte msg = Some newline -> line = msg) /\
     (last_byte msg <> Some newline -> line = msg +:+ String newline "")).
Proof.
  split.
  - intros ->. eexists. apply print_empty.
  - apply print_spec.
Qed.

Lemma print_ends_every_line_witness :
  exists line,
    print "warn: " "no such file" initial_world =
    (Ret tt,
     set_trace (trace initial_world ++ [EvStderr ("warn: " +:+ line)])
       initial_world) /\
    last_byte line = Some newline.
Proof.
  destruct (proj2 (print_ends_every_line "warn: " "no such file"
                     initial_world)) as (line & H1 & H2 & _);
    [discriminate|].
  exists line. split; assumption.
Defined.

(** X18. When the errors of unreadable key files have a message,
    [identityFiles] returns the methods it was given followed by the methods
    of the readable files, in the order of the files, and all it does is to
    write one warning on standard error for every file it could not read. *)
Theorem identityFiles_skips_unreadable os files methods w :
  (forall k e, k ∈ files -> IdentityFile os k = inr e -> Error e <> "") ->
  exists evs,
    identityFiles os methods files w =
    (Ret (methods ++ omap (readable os) files),
     set_trace (trace w ++ evs) w) /\
    Forall (fun e => is_stderr e = true) evs /\
    List.length evs = List.length (List.filter (unreadable os) files).
Proof.
  intros H. now apply identityFiles_spec.
Qed.

Lemma identityFiles_skips_unreadable_witness :
  exists evs,
    identityFiles sample_os [] ["id_rsa"; "id_dsa"] initial_world =
    (Ret [], set_trace (trace initial_world ++ evs) initial_world) /\
    Forall (fun e => is_stderr e = true) evs /\
    List.length evs = 2%nat.
Proof.
  apply (identityFiles_skips_unreadable sample_os ["id_rsa"; "id_dsa"] []
           initial_world).
  intros k e _ [= <-]. discriminate.
Defined.

(** X19. Whenever [main] reaches its call of [RunOn], it calls it on the
    hosts [targets] returned, with the command line arguments joined by
    spaces and the ceiling of [-m], and the [Config] it passes has the login
    of [-l], the methods of the readable key file and of the agent, of which
    there is at least one, the three handlers [PrintStdout], [PrintStderr]
    and [printAndCollateStatus], and a logger; until then the program has
    written to standard error only, and [succeeded] and [failed] are as at
    the start. *)
Theorem main_prepares_RunOn float64 millis Query Fields os
  (f : flags.t float64) w hosts cmd maxFlight w' :
  main_setup float64 millis Query Fields os f w
    (Ret (CallRunOn hosts cmd maxFlight)) w' ->
  flags.displayVersion f = false /\
  targets Query Fields os (flags.rangeExpr f) (flags.hostsFile f)
    (inl hosts) /\
  cmd = String.concat " " (flags.Args f) /\
  maxFlight = flags.maxFlight f /\
  Config.Login (cfg w') = flags.login f /\
  Config.AuthMethods (cfg w') = credentials os f /\
  credentials os f <> [] /\
  Config.StdoutHandler (cfg w') = Some PrintStdout /\
  Config.StderrHandler (cfg w') = Some PrintStderr /\
  Config.StatusHandler (cfg w') = Some printAndCollateStatus /\
  (exists l, Config.Logger (cfg w') = Some l /\
             exists lg, heap w' !! l = Some lg /\ subject lg = "main" /\
                        debugLevel lg = 2) /\
  succeeded w' = succeeded w /\ failed w' = failed w /\
  exists evs, trace w' = trace w ++ evs /\
              Forall (fun e => is_stderr e = true) evs.
Proof.
  unfold main_setup. destruct (flags.displayVersion f).
  { intros [= _]. }
  intros (hs & Ht & Hc). symmetry in Hc.
  apply main_configure_result in Hc as (-> & -> & -> & w1 & ms & Hw & Hm
                                        & Hne & ->).
  destruct Hw as (_ & _ & _ & Hs & Hf & Htr).
  split; [reflexivity|]. split; [exact Ht|].
  do 3 (split; [reflexivity|]). split; [exact Hm|].
  split; [now rewrite <- Hm|]. do 3 (split; [reflexivity|]).
  split; [|auto].
  eexists. split; [reflexivity|]. eexists.
  split; [cbn; apply list_lookup_middle; reflexivity | split; reflexivity].
Qed.

Lemma main_prepares_RunOn_witness :
  Config.AuthMethods
    (cfg (main_configure Z sample_millis sample_os sample_flags
            (inl ["h1"]) initial_world).2) = [7%nat].
Proof.
  apply (main_prepares_RunOn Z sample_millis sample_Query sample_Fields
           sample_os sample_flags initial_world ["h1"] "uptime" 100).
  exists (inl ["h1"]). split; reflexivity.
Defined.





(** X22. With no readable key file and no answering agent, [main] never
    calls [RunOn]: when the errors have a message and [-version] is not
    given, the program exits with code 255 having written to standard error
    only, and when [targets] returned hosts its last line is
    [fatal: no authentication methods remain]. *)
Theorem main_without_credentials_exits float64 millis Query Compress Fields
  os net (f : flags.t float64) w code final :
  with_messages Query os ->
  flags.displayVersion f = false ->
  credentials os f = [] ->
  main float64 millis Query Compress Fields os net f w code final ->
  code = 255 /\ stderr_only w final /\
  forall hosts,
    targets Query Fields os (flags.rangeExpr f) (flags.hostsFile f)
      (inl hosts) ->
    last (trace final) =
    Some (EvStderr ("fatal: no authentication methods remain"
                    +:+ String newline "")).
Proof.
  intros Hmsg Hv Hcred (result & w' & Hsetup & Hrun).
  unfold main_setup in Hsetup. rewrite Hv in Hsetup.
  destruct Hsetup as (hs & Ht & Hc). symmetry in Hc.
  destruct (main_configure_returns float64 millis os f hs w)
    as (r & w'' & Hc').
  { intros e ->. eapply targets_error; eassumption. }
  { apply Hmsg. }
  { apply Hmsg. }
  rewrite Hc in Hc'. injection Hc' as -> <-.
  pose proof (main_configure_result _ _ _ _ _ _ _ _ Hc) as Hr.
  destruct r as [c|hosts cmd mf].
  - destruct Hr as (-> & Hw & _). destruct Hrun as (-> & ->).
    split; [reflexivity|]. split; [exact Hw|].
    intros hosts Hi. destruct hs as [hs|e].
    + now apply (main_configure_no_credentials _ _ _ _ _ _ _ _ Hcred) in Hc
        as (_ & Hl).
    + destruct (targets_inl_inr _ _ _ _ _ _ _ Hi Ht).
  - destruct Hr as (_ & _ & _ & w1 & ms & _ & Hm & Hne & _).
    rewrite Hcred in Hm. contradiction.
Qed.

Lemma main_without_credentials_exits_witness :
  last (trace (main_configure Z sample_millis sample_os_no_agent sample_flags
                 (inl ["h1"]) initial_world).2) =
  Some (EvStderr ("fatal: no authentication methods remain"
                  +:+ String newline "")).
Proof.
  pose (W := (main_configure Z sample_millis sample_os_no_agent sample_flags
                (inl ["h1"]) initial_world).2).
  destruct (main_without_credentials_exits Z sample_millis sample_Query
              sample_Compress sample_Fields sample_os_no_agent
              (fun _ => remote_ok) sample_flags initial_world 255 W)
    as (_ & _ & H).
  - split.
    + intros q e. unfold sample_Query.
      destruct (q =? "host10..11.example")%string; [discriminate|].
      intros [= <-]. discriminate.
    + intros p e [= <-]. discriminate.
    + discriminate.
    + intros k e [= <-]. discriminate.
    + intros a e [= <-]. discriminate.
  - reflexivity.
  - reflexivity.
  - exists (Ret (Exit 255)), W. split.
    + exists (inl ["h1"]). split; reflexivity.
    + split; reflexivity.
  - apply (H ["h1"]). reflexivity.
Defined.
